(** * T3 player: alpha-beta pruned minimax with tie-breaking

    A shallow embedding of [t3_player.py] (functions [choose], [alphabeta],
    [best_choice_max], [best_choice_min]) and the properties of its
    specification.

    Layout: utilities, actions and the result type; the state interface;
    the search itself; an unpruned reference search; an instrumented search
    recording the calls it makes; game trees and the predicates the proofs
    use; a concrete state type for examples; then the theorems of the
    specification, and further properties of the search. *)

From Stdlib Require Import ZArith List Bool Lia.
Import ListNotations.
Local Open Scope Z_scope.

(* ------------------------------------------------------------------ *)
(** ** Utilities *)

(** The only float values the program ever builds are the literals
    [float('-inf')], [0], [0.5], [1] and [float('inf')]; [max] and [min]
    select one of their arguments.  They are compared with [>], [<], [==]
    and [<=], all exact on these values. *)
Inductive score : Type := NegInf | Zero | Half | One | PosInf.

(** Position on the number line: twice the value for the finite ones. *)
Definition rank (x : score) : Z :=
  match x with
  | NegInf => -1
  | Zero => 0
  | Half => 1
  | One => 2
  | PosInf => 3
  end.

Definition score_ltb (x y : score) : bool := rank x <? rank y.
Definition score_gtb (x y : score) : bool := rank y <? rank x.
Definition score_leb (x y : score) : bool := rank x <=? rank y.
Definition score_eqb (x y : score) : bool := rank x =? rank y.

(** Python's [max(a, b)] keeps [a] unless [b > a]; [min(a, b)] keeps [a]
    unless [b < a]. *)
Definition score_max (a b : score) : score := if score_gtb b a then b else a.
Definition score_min (a b : score) : score := if score_ltb b a then b else a.

(** The three utilities of a finished game. *)
Definition is_utility (x : score) : Prop := x = Zero \/ x = Half \/ x = One.

(* ------------------------------------------------------------------ *)
(** ** Actions *)

(** Modelled from the spec: the class [T3Action] lives in [t3_state.py],
    which is not part of the sources.  The spec gives an action a column, a
    row and a move number, and orders actions by column ascending, then row
    ascending, then move number ascending. *)
Record T3Action : Type := mkAction { col : Z; row : Z; move : Z }.

Definition action_ltb (x y : T3Action) : bool :=
  (col x <? col y)
  || ((col x =? col y)
      && ((row x <? row y) || ((row x =? row y) && (move x <? move y)))).

(* ------------------------------------------------------------------ *)
(** ** Results of a call *)

(** A call returns a value, raises (the only place that can is the
    comparison of an action with [None]), or is cut short by the fuel bound
    of the model. *)
Inductive outcome (A : Type) : Type :=
| Ok (x : A)
| Raised
| NoFuel.
Arguments Ok {A} x.
Arguments Raised {A}.
Arguments NoFuel {A}.

Definition bind {A B : Type} (m : outcome A) (k : A -> outcome B) : outcome B :=
  match m with
  | Ok x => k x
  | Raised => Raised
  | NoFuel => NoFuel
  end.

Notation "x <- m ;; k" := (bind m (fun x => k))
  (at level 61, m at next level, right associativity).
Notation "' p <- m ;; k" := (bind m (fun p => k))
  (at level 61, p pattern, m at next level, right associativity).

(** The triple (utility, action, depth) every search call returns. *)
Definition triple : Type := (score * option T3Action * Z)%type.

Definition utility_of (r : triple) : score := fst (fst r).
Definition action_of (r : triple) : option T3Action := snd (fst r).
Definition depth_of (r : triple) : Z := snd r.

(** [action < optimal_move]: the incumbent is [None] until a first child
    has been taken, and an action cannot be compared with [None]. *)
Definition lt_move (action : T3Action) (optimal_move : option T3Action)
  : outcome bool :=
  match optimal_move with
  | Some m => Ok (action_ltb action m)
  | None => Raised
  end.

(* ------------------------------------------------------------------ *)
(** ** The tie-breaking helpers *)

Definition best_choice_max (utility_score best_score : score)
    (action : T3Action) (optimal_move : option T3Action)
    (new_depth lowest_depth : Z) : outcome triple :=
  if score_gtb utility_score best_score then
    Ok (utility_score, Some action, new_depth)
  else if score_eqb utility_score best_score then
    if new_depth <? lowest_depth then
      Ok (utility_score, Some action, new_depth)
    else if new_depth =? lowest_depth then
      earlier <- lt_move action optimal_move ;;
      if (earlier : bool) then Ok (best_score, Some action, lowest_depth)
      else Ok (best_score, optimal_move, lowest_depth)
    else Ok (best_score, optimal_move, lowest_depth)
  else Ok (best_score, optimal_move, lowest_depth).

Definition best_choice_min (utility_score best_score : score)
    (action : T3Action) (optimal_move : option T3Action)
    (new_depth lowest_depth : Z) : outcome triple :=
  if score_ltb utility_score best_score then
    Ok (utility_score, Some action, new_depth)
  else if score_eqb utility_score best_score then
    if new_depth <? lowest_depth then
      Ok (utility_score, Some action, new_depth)
    else if new_depth =? lowest_depth then
      earlier <- lt_move action optimal_move ;;
      if (earlier : bool) then Ok (best_score, Some action, lowest_depth)
      else Ok (best_score, optimal_move, lowest_depth)
    else Ok (best_score, optimal_move, lowest_depth)
  else Ok (best_score, optimal_move, lowest_depth).

(* ------------------------------------------------------------------ *)
(** ** The state interface *)

(** [T3State] is used through three methods only. *)
Class T3StateOps (State : Type) : Type := {
  is_win : State -> bool;
  is_tie : State -> bool;
  get_transitions : State -> list (T3Action * State)
}.

Section Search.

Context {State : Type} `{T3StateOps State}.

(** The signature of [alphabeta] without its fuel. *)
Definition searcher : Type :=
  State -> score -> score -> bool -> bool -> Z -> outcome triple.

(** The [for] loop of a max node.  [rec] is the recursive call; every child
    is searched as a min node ([is_max = False], [is_min = True]). *)
Fixpoint max_loop (rec : searcher) (node_depth : Z)
    (moves : list (T3Action * State)) (a B : score)
    (best_score : score) (optimal_move : option T3Action) (lowest_depth : Z)
  : outcome triple :=
  match moves with
  | [] => Ok (best_score, optimal_move, lowest_depth)
  | (action, child) :: rest =>
      '(utility_score, _, new_depth) <- rec child a B false true (node_depth + 1) ;;
      '(best_score', optimal_move', lowest_depth') <-
        best_choice_max utility_score best_score action optimal_move
                        new_depth lowest_depth ;;
      let a' := score_max a best_score' in
      if score_leb B a' then Ok (best_score', optimal_move', lowest_depth')
      else max_loop rec node_depth rest a' B best_score' optimal_move' lowest_depth'
  end.

(** The [for] loop of a min node. *)
Fixpoint min_loop (rec : searcher) (node_depth : Z)
    (moves : list (T3Action * State)) (a B : score)
    (best_score : score) (optimal_move : option T3Action) (lowest_depth : Z)
  : outcome triple :=
  match moves with
  | [] => Ok (best_score, optimal_move, lowest_depth)
  | (action, child) :: rest =>
      '(utility_score, _, new_depth) <- rec child a B true false (node_depth + 1) ;;
      '(best_score', optimal_move', lowest_depth') <-
        best_choice_min utility_score best_score action optimal_move
                        new_depth lowest_depth ;;
      let B' := score_min B best_score' in
      if score_leb B' a then Ok (best_score', optimal_move', lowest_depth')
      else min_loop rec node_depth rest a B' best_score' optimal_move' lowest_depth'
  end.

Fixpoint alphabeta (fuel : nat) (state : State) (a B : score)
    (is_max is_min : bool) (node_depth : Z) : outcome triple :=
  match fuel with
  | O => NoFuel
  | S fuel' =>
      let check_win := is_win state in
      let check_tie := is_tie state in
      if check_tie then Ok (Half, None, node_depth)
      else if check_win then
        if negb is_max && is_min then Ok (One, None, node_depth)
        else Ok (Zero, None, node_depth)
      else
        let moves := get_transitions state in
        let optimal_move := @None T3Action in
        let lowest_depth := node_depth in
        if is_max && negb is_min then
          max_loop (alphabeta fuel') node_depth moves a B
                   NegInf optimal_move lowest_depth
        else if is_min && negb is_max then
          min_loop (alphabeta fuel') node_depth moves a B
                   PosInf optimal_move lowest_depth
        else Ok (Zero, None, node_depth)
  end.

Definition choose (fuel : nat) (state : State) : outcome (option T3Action) :=
  let a := NegInf in
  let B := PosInf in
  let is_max := true in
  let is_min := false in
  '(best_score, optimal_action, _) <- alphabeta fuel state a B is_max is_min 0 ;;
  Ok optimal_action.

End Search.

(* ------------------------------------------------------------------ *)
(** ** Exhaustive minimax, as the spec words it *)

(** The spec's reference for pruning equivalence: the same search with the
    bounds disabled, that is, no window is kept and no loop is left early.
    The tie-breaking helpers are the very same. *)
Section Minimax.

Context {State : Type} `{T3StateOps State}.

Definition plain_searcher : Type := State -> bool -> bool -> Z -> outcome triple.

Fixpoint minimax_max_loop (rec : plain_searcher) (node_depth : Z)
    (moves : list (T3Action * State))
    (best_score : score) (optimal_move : option T3Action) (lowest_depth : Z)
  : outcome triple :=
  match moves with
  | [] => Ok (best_score, optimal_move, lowest_depth)
  | (action, child) :: rest =>
      '(utility_score, _, new_depth) <- rec child false true (node_depth + 1) ;;
      '(best_score', optimal_move', lowest_depth') <-
        best_choice_max utility_score best_score action optimal_move
                        new_depth lowest_depth ;;
      minimax_max_loop rec node_depth rest best_score' optimal_move' lowest_depth'
  end.

Fixpoint minimax_min_loop (rec : plain_searcher) (node_depth : Z)
    (moves : list (T3Action * State))
    (best_score : score) (optimal_move : option T3Action) (lowest_depth : Z)
  : outcome triple :=
  match moves with
  | [] => Ok (best_score, optimal_move, lowest_depth)
  | (action, child) :: rest =>
      '(utility_score, _, new_depth) <- rec child true false (node_depth + 1) ;;
      '(best_score', optimal_move', lowest_depth') <-
        best_choice_min utility_score best_score action optimal_move
                        new_depth lowest_depth ;;
      minimax_min_loop rec node_depth rest best_score' optimal_move' lowest_depth'
  end.

Fixpoint minimax (fuel : nat) (state : State) (is_max is_min : bool)
    (node_depth : Z) : outcome triple :=
  match fuel with
  | O => NoFuel
  | S fuel' =>
      if is_tie state then Ok (Half, None, node_depth)
      else if is_win state then
        if negb is_max && is_min then Ok (One, None, node_depth)
        else Ok (Zero, None, node_depth)
      else
        let moves := get_transitions state in
        if is_max && negb is_min then
          minimax_max_loop (minimax fuel') node_depth moves NegInf None node_depth
        else if is_min && negb is_max then
          minimax_min_loop (minimax fuel') node_depth moves PosInf None node_depth
        else Ok (Zero, None, node_depth)
  end.

(** The (utility, action) pair the exhaustive search gives at the root. *)
Definition minimax_choice (fuel : nat) (state : State)
  : outcome (score * option T3Action) :=
  '(best_score, optimal_action, _) <- minimax fuel state true false 0 ;;
  Ok (best_score, optimal_action).

(** The same pair for the pruned search, as [choose] computes it. *)
Definition alphabeta_choice (fuel : nat) (state : State)
  : outcome (score * option T3Action) :=
  '(best_score, optimal_action, _) <- alphabeta fuel state NegInf PosInf true false 0 ;;
  Ok (best_score, optimal_action).

End Minimax.

(* ------------------------------------------------------------------ *)
(** ** The search with a record of its calls *)

(** Which of the five return sites of [alphabeta] a call takes. *)
Inductive branch : Type := AtTie | AtWin | AtMax | AtMin | FallThrough.

Section Logged.

Context {State : Type} `{T3StateOps State}.

(** One activation of [alphabeta]: its arguments and the site it returns
    from. *)
Record call : Type := mkCall {
  call_state : State;
  call_a : score;
  call_B : score;
  call_is_max : bool;
  call_is_min : bool;
  call_depth : Z;
  call_branch : branch
}.

Definition logged_searcher : Type :=
  State -> score -> score -> bool -> bool -> Z -> outcome triple * list call.

Fixpoint max_loop_log (rec : logged_searcher) (node_depth : Z)
    (moves : list (T3Action * State)) (a B : score)
    (best_score : score) (optimal_move : option T3Action) (lowest_depth : Z)
  : outcome triple * list call :=
  match moves with
  | [] => (Ok (best_score, optimal_move, lowest_depth), [])
  | (action, child) :: rest =>
      let (r, seen) := rec child a B false true (node_depth + 1) in
      match r with
      | Ok (utility_score, _, new_depth) =>
          match best_choice_max utility_score best_score action optimal_move
                                new_depth lowest_depth with
          | Ok (best_score', optimal_move', lowest_depth') =>
              let a' := score_max a best_score' in
              if score_leb B a' then
                (Ok (best_score', optimal_move', lowest_depth'), seen)
              else
                let (r', later) :=
                  max_loop_log rec node_depth rest a' B
                               best_score' optimal_move' lowest_depth' in
                (r', seen ++ later)
          | Raised => (Raised, seen)
          | NoFuel => (NoFuel, seen)
          end
      | Raised => (Raised, seen)
      | NoFuel => (NoFuel, seen)
      end
  end.

Fixpoint min_loop_log (rec : logged_searcher) (node_depth : Z)
    (moves : list (T3Action * State)) (a B : score)
    (best_score : score) (optimal_move : option T3Action) (lowest_depth : Z)
  : outcome triple * list call :=
  match moves with
  | [] => (Ok (best_score, optimal_move, lowest_depth), [])
  | (action, child) :: rest =>
      let (r, seen) := rec child a B true false (node_depth + 1) in
      match r with
      | Ok (utility_score, _, new_depth) =>
          match best_choice_min utility_score best_score action optimal_move
                                new_depth lowest_depth with
          | Ok (best_score', optimal_move', lowest_depth') =>
              let B' := score_min B best_score' in
              if score_leb B' a then
                (Ok (best_score', optimal_move', lowest_depth'), seen)
              else
                let (r', later) :=
                  min_loop_log rec node_depth rest a B'
                               best_score' optimal_move' lowest_depth' in
                (r', seen ++ later)
          | Raised => (Raised, seen)
          | NoFuel => (NoFuel, seen)
          end
      | Raised => (Raised, seen)
      | NoFuel => (NoFuel, seen)
      end
  end.

Fixpoint alphabeta_log (fuel : nat) (state : State) (a B : score)
    (is_max is_min : bool) (node_depth : Z) : outcome triple * list call :=
  match fuel with
  | O => (NoFuel, [])
  | S fuel' =>
      let here := mkCall state a B is_max is_min node_depth in
      if is_tie state then (Ok (Half, None, node_depth), [here AtTie])
      else if is_win state then
        if negb is_max && is_min then (Ok (One, None, node_depth), [here AtWin])
        else (Ok (Zero, None, node_depth), [here AtWin])
      else
        let moves := get_transitions state in
        if is_max && negb is_min then
          let (r, below) :=
            max_loop_log (alphabeta_log fuel') node_depth moves a B
                         NegInf None node_depth in
          (r, here AtMax :: below)
        else if is_min && negb is_max then
          let (r, below) :=
            min_loop_log (alphabeta_log fuel') node_depth moves a B
                         PosInf None node_depth in
          (r, here AtMin :: below)
        else (Ok (Zero, None, node_depth), [here FallThrough])
  end.

(** The calls made by one run of [choose]. *)
Definition choose_log (fuel : nat) (state : State) : list call :=
  snd (alphabeta_log fuel state NegInf PosInf true false 0).

End Logged.

Arguments call State : clear implicits.

(* ------------------------------------------------------------------ *)
(** ** Game trees *)

Section Games.

Context {State : Type} `{T3StateOps State}.

Definition terminal (s : State) : bool := is_tie s || is_win s.

(** Every sequence of moves from [s] ends: below a state that is not
    terminal all children are finite games again. *)
Inductive finite_game : State -> Prop :=
| finite_terminal s : terminal s = true -> finite_game s
| finite_inner s :
    terminal s = false ->
    (forall action child, In (action, child) (get_transitions s) -> finite_game child) ->
    finite_game s.

(** The contract of the state abstraction: a state that is not terminal
    offers at least one transition, and every line of play ends in a
    terminal state. *)
Inductive contract : State -> Prop :=
| contract_terminal s : terminal s = true -> contract s
| contract_inner s :
    terminal s = false ->
    get_transitions s <> [] ->
    (forall action child, In (action, child) (get_transitions s) -> contract child) ->
    contract s.

(** [plies_to_terminal s n]: some line of play of [n] plies leads from [s]
    to a terminal state. *)
Inductive plies_to_terminal : State -> nat -> Prop :=
| plies_here s : terminal s = true -> plies_to_terminal s 0
| plies_step s action child n :
    terminal s = false ->
    In (action, child) (get_transitions s) ->
    plies_to_terminal child n ->
    plies_to_terminal s (S n).

(** The utility [alphabeta] gives a terminal state searched as a max node
    ([maximizing = true]) or as a min node. *)
Definition terminal_utility (s : State) (maximizing : bool) : score :=
  if is_tie s then Half else if maximizing then Zero else One.

(** [reports s maximizing n u]: a line of play of [n] plies leads from [s],
    searched in role [maximizing], to a terminal state whose utility there
    is [u]. *)
Inductive reports : State -> bool -> nat -> score -> Prop :=
| reports_here s maximizing :
    terminal s = true -> reports s maximizing 0 (terminal_utility s maximizing)
| reports_step s maximizing action child n u :
    terminal s = false ->
    In (action, child) (get_transitions s) ->
    reports child (negb maximizing) n u ->
    reports s maximizing (S n) u.

End Games.

(* ------------------------------------------------------------------ *)
(** ** Predicates on searches and their results *)

Section Predicates.

Context {State : Type} `{T3StateOps State}.

(** A recursive call that never raises and never returns a depth below the
    one it was given. *)
Definition depth_safe (rec : searcher) : Prop :=
  forall (s : State) a B is_max is_min d,
    match rec s a B is_max is_min d with
    | Ok r => d <= depth_of r
    | Raised => False
    | NoFuel => True
    end.

(** What the loops keep: the incumbent's depth is at least the node's, and
    as long as no action has been taken it is the node's depth itself. *)
Definition incumbent_ok (d : Z) (r : triple) : Prop :=
  d <= depth_of r /\ (action_of r = None -> depth_of r = d).

(** [rec'] returns whatever [rec] returns. *)
Definition extends (rec rec' : searcher) : Prop :=
  forall (s : State) a B is_max is_min d r,
    rec s a B is_max is_min d = Ok r -> rec' s a B is_max is_min d = Ok r.

(** [fuel] is enough to search [s], whatever the other arguments. *)
Definition runs (fuel : nat) (s : State) : Prop :=
  forall a B is_max is_min d, alphabeta fuel s a B is_max is_min d <> NoFuel.

(** The utility is one of the three, and the depth is the node's depth
    plus the length of a line of play to a terminal state of that utility. *)
Definition answer (s : State) (maximizing : bool) (d : Z) (r : triple) : Prop :=
  is_utility (utility_of r)
  /\ exists n : nat,
       depth_of r = d + Z.of_nat n /\ reports s maximizing n (utility_of r).

(** The action is one of the moves of the state. *)
Definition chosen (s : State) (r : triple) : Prop :=
  exists action child,
    action_of r = Some action /\ In (action, child) (get_transitions s).

Definition settled (s : State) (maximizing : bool) (d : Z) (r : triple) : Prop :=
  answer s maximizing d r /\ chosen s r.

(** The logged search returns what the search returns. *)
Definition erases (lrec : logged_searcher) (rec : searcher) : Prop :=
  forall (s : State) a B is_max is_min d,
    fst (lrec s a B is_max is_min d) = rec s a B is_max is_min d.

(** A call whose two flags are opposite, whose role is given by the parity
    of its depth (max at even depths), and which does not leave through
    the last [return] of [alphabeta]. *)
Definition well_flagged (c : call State) : Prop :=
  call_is_max c = negb (call_is_min c)
  /\ call_is_max c = Z.even (call_depth c)
  /\ call_branch c <> FallThrough.

(** The calls a recursive call makes are well flagged when it is itself
    made at depth [d] with the flags of that depth. *)
Definition flags_kept (lrec : logged_searcher) : Prop :=
  forall (s : State) a B d,
    Forall well_flagged (snd (lrec s a B (Z.even d) (negb (Z.even d)) d)).

(** How the utility [u] of a search within the window ([a], [B]) relates to
    the exhaustive utility [v]: equal when [v] lies inside the window, and
    on the same side of the window as [v] otherwise. *)
Definition within (a B u v : score) : Prop :=
  (rank v <= rank a -> rank u <= rank a)
  /\ (rank B <= rank v -> rank B <= rank u)
  /\ (rank a < rank v < rank B -> rank u = rank v).

(** A pruned recursive call and an exhaustive one that agree in this way
    on the children of a list. *)
Definition agree_on (rec : searcher) (rec' : plain_searcher)
    (moves : list (T3Action * State)) : Prop :=
  forall action child,
    In (action, child) moves ->
    forall a B is_max is_min d d' r r',
      rank a < rank B ->
      rec child a B is_max is_min d = Ok r ->
      rec' child is_max is_min d' = Ok r' ->
      within a B (utility_of r) (utility_of r').

(** The log holds a call on [child] at depth [d]. *)
Definition searched (log : list (call State)) (child : State) (d : Z) : Prop :=
  exists c, In c log /\ call_state c = child /\ call_depth c = d.

(** A logged call that returns has logged itself. *)
Definition announces (lrec : logged_searcher) : Prop :=
  forall (s : State) a B is_max is_min d r log,
    lrec s a B is_max is_min d = (Ok r, log) -> searched log s d.

End Predicates.

(* ------------------------------------------------------------------ *)
(** ** Mirror images, paths and exhaustive searches *)

(** The utility seen from the other side: win and loss change places. *)
Definition flip (x : score) : score :=
  match x with
  | NegInf => PosInf
  | Zero => One
  | Half => Half
  | One => Zero
  | PosInf => NegInf
  end.

Definition flip_triple (r : triple) : triple :=
  (flip (utility_of r), action_of r, depth_of r).

Definition flip_outcome (x : outcome triple) : outcome triple :=
  match x with
  | Ok r => Ok (flip_triple r)
  | Raised => Raised
  | NoFuel => NoFuel
  end.

(** Where a result stands: without an action at the depth of the call, with
    an action strictly below it. *)
Definition placed (d : Z) (r : triple) : Prop :=
  match action_of r with
  | None => depth_of r = d
  | Some _ => d + 1 <= depth_of r
  end.

Section Paths.

Context {State : Type} `{T3StateOps State}.

(** [descends s n t]: [n] transitions, each out of a state that is not
    terminal, lead from [s] to [t]. *)
Inductive descends : State -> nat -> State -> Prop :=
| descends_here s : descends s 0 s
| descends_step s action child n t :
    terminal s = false ->
    In (action, child) (get_transitions s) ->
    descends child n t ->
    descends s (S n) t.

(** An exhaustive recursive call that never raises and never returns a
    depth below the one it was given. *)
Definition plain_depth_safe (rec : plain_searcher) : Prop :=
  forall (s : State) is_max is_min d,
    match rec s is_max is_min d with
    | Ok r => d <= depth_of r
    | Raised => False
    | NoFuel => True
    end.

Definition plain_extends (rec rec' : plain_searcher) : Prop :=
  forall (s : State) is_max is_min d r,
    rec s is_max is_min d = Ok r -> rec' s is_max is_min d = Ok r.

(** [fuel] is enough for the exhaustive search of [s]. *)
Definition plain_runs (fuel : nat) (s : State) : Prop :=
  forall is_max is_min d, minimax fuel s is_max is_min d <> NoFuel.

(** The call [c] was made on a state [n] plies below [s], at depth
    [d + n]. *)
Definition below (s : State) (d : Z) (c : call State) : Prop :=
  exists n : nat,
    call_depth c = d + Z.of_nat n /\ descends s n (call_state c).

(** The window of the call [c] is open and lies inside ([a], [B]). *)
Definition window_inside (a B : score) (c : call State) : Prop :=
  score_leb a (call_a c) = true
  /\ score_ltb (call_a c) (call_B c) = true
  /\ score_leb (call_B c) B = true.

End Paths.

(* ------------------------------------------------------------------ *)
(** ** Counting the calls of the exhaustive search *)

Section Counted.

Context {State : Type} `{T3StateOps State}.

(** The exhaustive search together with the number of calls it makes. *)
Definition counted_searcher : Type :=
  State -> bool -> bool -> Z -> outcome triple * nat.

Fixpoint minimax_max_loop_count (rec : counted_searcher) (node_depth : Z)
    (moves : list (T3Action * State))
    (best_score : score) (optimal_move : option T3Action) (lowest_depth : Z)
  : outcome triple * nat :=
  match moves with
  | [] => (Ok (best_score, optimal_move, lowest_depth), O)
  | (action, child) :: rest =>
      let (r, seen) := rec child false true (node_depth + 1) in
      match r with
      | Ok (utility_score, _, new_depth) =>
          match best_choice_max utility_score best_score action optimal_move
                                new_depth lowest_depth with
          | Ok (best_score', optimal_move', lowest_depth') =>
              let (r', later) :=
                minimax_max_loop_count rec node_depth rest
                                       best_score' optimal_move' lowest_depth' in
              (r', (seen + later)%nat)
          | Raised => (Raised, seen)
          | NoFuel => (NoFuel, seen)
          end
      | Raised => (Raised, seen)
      | NoFuel => (NoFuel, seen)
      end
  end.

Fixpoint minimax_min_loop_count (rec : counted_searcher) (node_depth : Z)
    (moves : list (T3Action * State))
    (best_score : score) (optimal_move : option T3Action) (lowest_depth : Z)
  : outcome triple * nat :=
  match moves with
  | [] => (Ok (best_score, optimal_move, lowest_depth), O)
  | (action, child) :: rest =>
      let (r, seen) := rec child true false (node_depth + 1) in
      match r with
      | Ok (utility_score, _, new_depth) =>
          match best_choice_min utility_score best_score action optimal_move
                                new_depth lowest_depth with
          | Ok (best_score', optimal_move', lowest_depth') =>
              let (r', later) :=
                minimax_min_loop_count rec node_depth rest
                                       best_score' optimal_move' lowest_depth' in
              (r', (seen + later)%nat)
          | Raised => (Raised, seen)
          | NoFuel => (NoFuel, seen)
          end
      | Raised => (Raised, seen)
      | NoFuel => (NoFuel, seen)
      end
  end.

Fixpoint minimax_count (fuel : nat) (state : State) (is_max is_min : bool)
    (node_depth : Z) : outcome triple * nat :=
  match fuel with
  | O => (NoFuel, O)
  | S fuel' =>
      if is_tie state then (Ok (Half, None, node_depth), 1%nat)
      else if is_win state then
        if negb is_max && is_min then (Ok (One, None, node_depth), 1%nat)
        else (Ok (Zero, None, node_depth), 1%nat)
      else
        let moves := get_transitions state in
        if is_max && negb is_min then
          let (r, below) :=
            minimax_max_loop_count (minimax_count fuel') node_depth moves
                                   NegInf None node_depth in
          (r, S below)
        else if is_min && negb is_max then
          let (r, below) :=
            minimax_min_loop_count (minimax_count fuel') node_depth moves
                                   PosInf None node_depth in
          (r, S below)
        else (Ok (Zero, None, node_depth), 1%nat)
  end.

(** The counted search returns what the exhaustive search returns. *)
Definition count_erases (crec : counted_searcher) (rec : plain_searcher) : Prop :=
  forall (s : State) is_max is_min d,
    fst (crec s is_max is_min d) = rec s is_max is_min d.

(** A pruned logged call makes no more calls than the counted exhaustive
    one, when the latter returns. *)
Definition no_more_calls (lrec : logged_searcher) (crec : counted_searcher) : Prop :=
  forall (s : State) a B is_max is_min d r,
    fst (crec s is_max is_min d) = Ok r ->
    (length (snd (lrec s a B is_max is_min d)) <= snd (crec s is_max is_min d))%nat.

End Counted.

(* ------------------------------------------------------------------ *)
(** ** Calls inside a run *)

(** The test that ends a loop early, on the window the call was given and
    the triple it returned: [B <= max(a, best_score)] at a max node,
    [min(B, best_score) <= a] at a min node. *)
Definition window_closed (maximizing : bool) (a B : score) (r : triple) : bool :=
  if maximizing then score_leb B (score_max a (utility_of r))
  else score_leb (score_min B (utility_of r)) a.

Section Subruns.

Context {State : Type} `{T3StateOps State}.

(** The call [c], found in [log], is a run of the logged search of its
    own: it returned, with no more fuel than [fuel], and all the calls it
    made are in [log]. *)
Definition subrun (fuel : nat) (log : list (call State)) (c : call State) : Prop :=
  exists (fuel_c : nat) (r_c : triple) (log_c : list (call State)),
    (fuel_c <= fuel)%nat
    /\ alphabeta_log fuel_c (call_state c) (call_a c) (call_B c)
                     (call_is_max c) (call_is_min c) (call_depth c)
       = (Ok r_c, log_c)
    /\ incl log_c log.

(** What the induction on the fuel carries: in a logged search that
    returned, every logged call is a run of its own. *)
Definition subruns_at (fuel : nat) : Prop :=
  forall (s : State) a B is_max is_min d r log,
    alphabeta_log fuel s a B is_max is_min d = (Ok r, log) ->
    forall c, In c log -> subrun fuel log c.

End Subruns.

(* ------------------------------------------------------------------ *)
(** ** A concrete state type *)

(** A position given by the answers of its three methods. *)
#[local] Set Warnings "-register-all".
Inductive Board : Type :=
| mkBoard (won tied : bool) (next : list (T3Action * Board)).

Definition board_won (b : Board) : bool := let 'mkBoard w _ _ := b in w.
Definition board_tied (b : Board) : bool := let 'mkBoard _ t _ := b in t.
Definition board_next (b : Board) : list (T3Action * Board) :=
  let 'mkBoard _ _ n := b in n.

#[export] Instance Board_ops : T3StateOps Board := {
  is_win := board_won;
  is_tie := board_tied;
  get_transitions := board_next
}.

(** A finished game without a winner, a finished game with one, a position
    with the given moves, and a position that is neither finished nor has
    a move (outside the contract). *)
Definition tie_board : Board := mkBoard false true [].
Definition win_board : Board := mkBoard true false [].
Definition open_board (next : list (T3Action * Board)) : Board :=
  mkBoard false false next.
Definition stuck_board : Board := open_board [].

Definition act (c r m : Z) : T3Action := mkAction c r m.

(** The position on which pruning changes the move.  The first move leads,
    through two forced plies, to a tie at depth 3.  The second move lets the
    opponent choose between a tie and a win of theirs, both at depth 2. *)
Definition slow_tie : Board :=
  open_board [(act 0 1 1, open_board [(act 0 2 2, tie_board)])].
Definition tie_or_loss : Board :=
  open_board [(act 0 1 1, tie_board); (act 0 2 1, win_board)].
Definition pruning_board : Board :=
  open_board [(act 0 0 1, slow_tie); (act 1 0 1, tie_or_loss)].

(** The position on which pruning hides the nearer of two ties.  The first
    move leads, through two forced plies, to a tie at depth 3.  After the
    second move the opponent can reach a tie at depth 4 through two forced
    plies, or a tie at depth 2 at once. *)
Definition far_tie : Board :=
  open_board [(act 1 1 2, open_board [(act 1 2 3, tie_board)])].
Definition far_or_near_tie : Board :=
  open_board [(act 0 1 1, far_tie); (act 0 2 1, tie_board)].
Definition depth_board : Board :=
  open_board [(act 0 0 1, slow_tie); (act 1 0 1, far_or_near_tie)].

(** A position with one move, whose reply leads to a position that is
    neither finished nor has a move. *)
Definition dead_end_board : Board :=
  open_board [(act 0 0 1, open_board [(act 0 1 2, stuck_board)])].

(** A position with one move, which ends the game in a tie. *)
Definition last_move_board : Board := open_board [(act 2 2 1, tie_board)].

(* ================================================================== *)
(** * Properties *)

(* ------------------------------------------------------------------ *)
(** ** Scores and actions *)

Lemma score_eqb_eq (x y : score) : score_eqb x y = true <-> x = y.
Proof.
  unfold score_eqb; split.
  - destruct x, y; simpl; intros E; try reflexivity; discriminate E.
  - intros ->; apply Z.eqb_refl.
Qed.

Lemma score_eqb_refl (x : score) : score_eqb x x = true.
Proof. apply score_eqb_eq; reflexivity. Qed.

Lemma score_gtb_irrefl (x : score) : score_gtb x x = false.
Proof. apply Z.ltb_irrefl. Qed.

Lemma score_ltb_irrefl (x : score) : score_ltb x x = false.
Proof. apply Z.ltb_irrefl. Qed.

Lemma is_utility_above_neginf (u : score) : is_utility u -> score_gtb u NegInf = true.
Proof. intros [-> | [-> | ->]]; reflexivity. Qed.

Lemma is_utility_below_posinf (u : score) : is_utility u -> score_ltb u PosInf = true.
Proof. intros [-> | [-> | ->]]; reflexivity. Qed.

(** The order on actions is a strict total order. *)
Lemma action_ltb_irrefl (x : T3Action) : action_ltb x x = false.
Proof.
  unfold action_ltb.
  rewrite !Z.ltb_irrefl, !Z.eqb_refl; reflexivity.
Qed.

Lemma action_ltb_trans (x y z : T3Action) :
  action_ltb x y = true -> action_ltb y z = true -> action_ltb x z = true.
Proof.
  unfold action_ltb.
  rewrite !orb_true_iff, !andb_true_iff, !orb_true_iff, !andb_true_iff,
          !Z.ltb_lt, !Z.eqb_eq.
  lia.
Qed.

Lemma action_ltb_total (x y : T3Action) :
  action_ltb x y = true \/ x = y \/ action_ltb y x = true.
Proof.
  destruct x as [c1 r1 m1], y as [c2 r2 m2].
  unfold action_ltb; simpl.
  rewrite !orb_true_iff, !andb_true_iff, !orb_true_iff, !andb_true_iff,
          !Z.ltb_lt, !Z.eqb_eq.
  destruct (Z.lt_trichotomy c1 c2) as [L | [E | L]]; [lia | | lia].
  destruct (Z.lt_trichotomy r1 r2) as [L' | [E' | L']]; [lia | | lia].
  destruct (Z.lt_trichotomy m1 m2) as [L'' | [E'' | L'']]; [lia | | lia].
  right; left; subst; reflexivity.
Qed.

(* ------------------------------------------------------------------ *)
(** ** The tie-breaking rules *)

(** C2: with equal utility and equal depth, the helper of a max node and
    the helper of a min node both return the incumbent's utility and depth,
    together with the candidate's action when it is smaller than the
    incumbent's action in the order (column, row, move number) and with the
    incumbent's action in every other case. *)
Theorem tie_break_equal_depth_by_action
    (utility_score best_score : score) (action incumbent : T3Action)
    (new_depth lowest_depth : Z) :
  utility_score = best_score ->
  new_depth = lowest_depth ->
  let chosen := if action_ltb action incumbent then action else incumbent in
  best_choice_max utility_score best_score action (Some incumbent)
                  new_depth lowest_depth
    = Ok (best_score, Some chosen, lowest_depth)
  /\ best_choice_min utility_score best_score action (Some incumbent)
                     new_depth lowest_depth
    = Ok (best_score, Some chosen, lowest_depth).
Proof.
  intros -> -> chosen; subst chosen.
  unfold best_choice_max, best_choice_min.
  rewrite score_gtb_irrefl, score_ltb_irrefl, score_eqb_refl.
  rewrite Z.ltb_irrefl, Z.eqb_refl; simpl.
  destruct (action_ltb action incumbent); split; reflexivity.
Qed.

Lemma tie_break_equal_depth_by_action_witness :
  best_choice_max Half Half (act 0 2 1) (Some (act 1 0 1)) 4 4
    = Ok (Half, Some (act 0 2 1), 4)
  /\ best_choice_min Half Half (act 0 2 1) (Some (act 1 0 1)) 4 4
    = Ok (Half, Some (act 0 2 1), 4).
Proof.
  exact (tie_break_equal_depth_by_action
           Half Half (act 0 2 1) (act 1 0 1) 4 4 eq_refl eq_refl).
Defined.

(** X15: with equal utility and a strictly smaller depth of the candidate,
    both helpers return the candidate: its utility, its action and its
    depth, whatever the incumbent's action is.  With equal utility and a
    strictly larger depth of the candidate both keep the incumbent, so of
    the two the helpers keep the one at the smaller depth. *)
Theorem tie_break_smaller_depth_wins
    (utility_score best_score : score) (action : T3Action)
    (optimal_move : option T3Action) (new_depth lowest_depth : Z) :
  utility_score = best_score ->
  (new_depth < lowest_depth ->
     best_choice_max utility_score best_score action optimal_move
                     new_depth lowest_depth
       = Ok (utility_score, Some action, new_depth)
     /\ best_choice_min utility_score best_score action optimal_move
                        new_depth lowest_depth
       = Ok (utility_score, Some action, new_depth))
  /\ (lowest_depth < new_depth ->
        best_choice_max utility_score best_score action optimal_move
                        new_depth lowest_depth
          = Ok (best_score, optimal_move, lowest_depth)
        /\ best_choice_min utility_score best_score action optimal_move
                           new_depth lowest_depth
          = Ok (best_score, optimal_move, lowest_depth)).
Proof.
  intros ->.
  unfold best_choice_max, best_choice_min.
  rewrite score_gtb_irrefl, score_ltb_irrefl, score_eqb_refl.
  split; intros L.
  - apply Z.ltb_lt in L; rewrite L. split; reflexivity.
  - assert (L1 : (new_depth <? lowest_depth) = false) by (apply Z.ltb_ge; lia).
    assert (L2 : (new_depth =? lowest_depth) = false) by (apply Z.eqb_neq; lia).
    rewrite L1, L2. split; reflexivity.
Qed.

Lemma tie_break_smaller_depth_wins_witness :
  (best_choice_max Zero Zero (act 2 2 1) (Some (act 0 0 1)) 2 4
     = Ok (Zero, Some (act 2 2 1), 2)
   /\ best_choice_min Zero Zero (act 2 2 1) (Some (act 0 0 1)) 2 4
     = Ok (Zero, Some (act 2 2 1), 2))
  /\ (best_choice_max Zero Zero (act 0 0 1) (Some (act 2 2 1)) 4 2
       = Ok (Zero, Some (act 2 2 1), 2)
      /\ best_choice_min Zero Zero (act 0 0 1) (Some (act 2 2 1)) 4 2
       = Ok (Zero, Some (act 2 2 1), 2)).
Proof.
  split.
  - apply (tie_break_smaller_depth_wins
             Zero Zero (act 2 2 1) (Some (act 0 0 1)) 2 4 eq_refl).
    reflexivity.
  - apply (tie_break_smaller_depth_wins
             Zero Zero (act 0 0 1) (Some (act 2 2 1)) 4 2 eq_refl).
    reflexivity.
Defined.

(* ------------------------------------------------------------------ *)
(** ** Terminal states *)

Section TerminalCases.

Context {State : Type} `{T3StateOps State}.

(** C5: on a state that is a win and not a tie, the search returns utility
    1 at a min node and utility 0 at a max node, with no action and the
    depth it was called with. *)
Theorem win_credited_to_previous_mover
    (state : State) (fuel : nat) (a B : score) (node_depth : Z) :
  is_win state = true ->
  is_tie state = false ->
  alphabeta (S fuel) state a B false true node_depth = Ok (One, None, node_depth)
  /\ alphabeta (S fuel) state a B true false node_depth = Ok (Zero, None, node_depth).
Proof.
  intros W T; simpl; rewrite W, T; split; reflexivity.
Qed.

(** C10: on a state that is a tie the search returns (0.5, no action,
    depth), whatever the win test says and whatever the roles are. *)
Theorem tie_checked_before_win
    (state : State) (fuel : nat) (a B : score) (is_max is_min : bool)
    (node_depth : Z) :
  is_tie state = true ->
  alphabeta (S fuel) state a B is_max is_min node_depth
    = Ok (Half, None, node_depth).
Proof.
  intros T; simpl; rewrite T; reflexivity.
Qed.

End TerminalCases.

Lemma win_credited_to_previous_mover_witness :
  alphabeta 1 win_board NegInf PosInf false true 5 = Ok (One, None, 5)
  /\ alphabeta 1 win_board NegInf PosInf true false 5 = Ok (Zero, None, 5).
Proof.
  exact (win_credited_to_previous_mover
           win_board 0 NegInf PosInf 5 eq_refl eq_refl).
Defined.

Lemma tie_checked_before_win_witness :
  alphabeta 1 (mkBoard true true []) NegInf PosInf false true 9
    = Ok (Half, None, 9).
Proof.
  exact (tie_checked_before_win
           (mkBoard true true []) 0 NegInf PosInf false true 9 eq_refl).
Defined.

(* ------------------------------------------------------------------ *)
(** ** What the helpers can return *)

(** The max helper returns the candidate, or the incumbent with the
    candidate's action, or the incumbent; it raises exactly when utilities
    and depths agree and there is no incumbent action to compare with. *)
Lemma best_choice_max_spec (u b : score) (action : T3Action)
    (o : option T3Action) (nd ld : Z) :
  match best_choice_max u b action o nd ld with
  | Ok r =>
      (r = (u, Some action, nd) /\ (score_gtb u b = true \/ (u = b /\ nd < ld)))
      \/ (r = (b, Some action, ld) /\ u = b /\ nd = ld /\ o <> None)
      \/ (r = (b, o, ld) /\ score_gtb u b = false)
  | Raised => u = b /\ nd = ld /\ o = None
  | NoFuel => False
  end.
Proof.
  unfold best_choice_max.
  destruct (score_gtb u b) eqn:G; [left; auto |].
  destruct (score_eqb u b) eqn:E; [| right; right; auto].
  apply score_eqb_eq in E.
  destruct (nd <? ld) eqn:L.
  - apply Z.ltb_lt in L; left; auto.
  - destruct (nd =? ld) eqn:Q; [| right; right; auto].
    apply Z.eqb_eq in Q.
    destruct o as [m |]; simpl; [| auto].
    destruct (action_ltb action m).
    + right; left; repeat split; auto; discriminate.
    + right; right; auto.
Qed.

Lemma best_choice_min_spec (u b : score) (action : T3Action)
    (o : option T3Action) (nd ld : Z) :
  match best_choice_min u b action o nd ld with
  | Ok r =>
      (r = (u, Some action, nd) /\ (score_ltb u b = true \/ (u = b /\ nd < ld)))
      \/ (r = (b, Some action, ld) /\ u = b /\ nd = ld /\ o <> None)
      \/ (r = (b, o, ld) /\ score_ltb u b = false)
  | Raised => u = b /\ nd = ld /\ o = None
  | NoFuel => False
  end.
Proof.
  unfold best_choice_min.
  destruct (score_ltb u b) eqn:G; [left; auto |].
  destruct (score_eqb u b) eqn:E; [| right; right; auto].
  apply score_eqb_eq in E.
  destruct (nd <? ld) eqn:L.
  - apply Z.ltb_lt in L; left; auto.
  - destruct (nd =? ld) eqn:Q; [| right; right; auto].
    apply Z.eqb_eq in Q.
    destruct o as [m |]; simpl; [| auto].
    destruct (action_ltb action m).
    + right; left; repeat split; auto; discriminate.
    + right; right; auto.
Qed.

(* ------------------------------------------------------------------ *)
(** ** Depths only grow, and nothing raises *)

Section SearchFacts.

Context {State : Type} `{T3StateOps State}.

Lemma max_loop_depth_safe (rec : searcher) (d : Z) :
  depth_safe rec ->
  forall (moves : list (T3Action * State)) a B best o l,
    incumbent_ok d (best, o, l) ->
    match max_loop rec d moves a B best o l with
    | Ok r => incumbent_ok d r
    | Raised => False
    | NoFuel => True
    end.
Proof.
  intros Hrec; induction moves as [| [action child] rest IH];
    intros a B best o l [Hl Ho]; simpl in Hl, Ho.
  - simpl; split; assumption.
  - simpl.
    pose proof (Hrec child a B false true (d + 1)) as Hc.
    destruct (rec child a B false true (d + 1)) as [[[u x] nd] | |];
      simpl; try exact Hc; try exact I.
    unfold depth_of in Hc; simpl in Hc.
    pose proof (best_choice_max_spec u best action o nd l) as Hb.
    destruct (best_choice_max u best action o nd l) as [[[b' o'] l'] | |]; simpl.
    + assert (Hinc : incumbent_ok d (b', o', l')).
      { destruct Hb as [[E _] | [[E (_ & _ & No)] | [E _]]];
          inversion E; subst; split; simpl; try discriminate; try lia; auto. }
      destruct (score_leb B (score_max a b')); [exact Hinc | apply IH; exact Hinc].
    + destruct Hb as (_ & -> & ->). specialize (Ho eq_refl). lia.
    + destruct Hb.
Qed.

Lemma min_loop_depth_safe (rec : searcher) (d : Z) :
  depth_safe rec ->
  forall (moves : list (T3Action * State)) a B best o l,
    incumbent_ok d (best, o, l) ->
    match min_loop rec d moves a B best o l with
    | Ok r => incumbent_ok d r
    | Raised => False
    | NoFuel => True
    end.
Proof.
  intros Hrec; induction moves as [| [action child] rest IH];
    intros a B best o l [Hl Ho]; simpl in Hl, Ho.
  - simpl; split; assumption.
  - simpl.
    pose proof (Hrec child a B true false (d + 1)) as Hc.
    destruct (rec child a B true false (d + 1)) as [[[u x] nd] | |];
      simpl; try exact Hc; try exact I.
    unfold depth_of in Hc; simpl in Hc.
    pose proof (best_choice_min_spec u best action o nd l) as Hb.
    destruct (best_choice_min u best action o nd l) as [[[b' o'] l'] | |]; simpl.
    + assert (Hinc : incumbent_ok d (b', o', l')).
      { destruct Hb as [[E _] | [[E (_ & _ & No)] | [E _]]];
          inversion E; subst; split; simpl; try discriminate; try lia; auto. }
      destruct (score_leb (score_min B b') a); [exact Hinc | apply IH; exact Hinc].
    + destruct Hb as (_ & -> & ->). specialize (Ho eq_refl). lia.
    + destruct Hb.
Qed.

Lemma incumbent_ok_start (d : Z) (best : score) : incumbent_ok d (best, None, d).
Proof. split; simpl; [lia | reflexivity]. Qed.

Lemma alphabeta_depth_safe (fuel : nat) : depth_safe (alphabeta fuel).
Proof.
  induction fuel as [| fuel IH]; intros s a B is_max is_min d; simpl; [exact I |].
  destruct (is_tie s); [simpl; lia |].
  destruct (is_win s).
  { destruct (negb is_max && is_min); simpl; lia. }
  destruct (is_max && negb is_min).
  { pose proof (max_loop_depth_safe (alphabeta fuel) d IH (get_transitions s)
                  a B NegInf None d (incumbent_ok_start d NegInf)) as L.
    destruct (max_loop (alphabeta fuel) d (get_transitions s) a B NegInf None d);
      [apply L | exact L | exact I]. }
  destruct (is_min && negb is_max).
  { pose proof (min_loop_depth_safe (alphabeta fuel) d IH (get_transitions s)
                  a B PosInf None d (incumbent_ok_start d PosInf)) as L.
    destruct (min_loop (alphabeta fuel) d (get_transitions s) a B PosInf None d);
      [apply L | exact L | exact I]. }
  simpl; lia.
Qed.

(** The search never raises: the comparison with [None] is never reached. *)
Lemma alphabeta_never_raises (fuel : nat) (s : State) a B is_max is_min d :
  alphabeta fuel s a B is_max is_min d <> Raised.
Proof.
  intros E. pose proof (alphabeta_depth_safe fuel s a B is_max is_min d) as D.
  rewrite E in D; exact D.
Qed.

Lemma alphabeta_depth_ge (fuel : nat) (s : State) a B is_max is_min d r :
  alphabeta fuel s a B is_max is_min d = Ok r -> d <= depth_of r.
Proof.
  intros E. pose proof (alphabeta_depth_safe fuel s a B is_max is_min d) as D.
  rewrite E in D; exact D.
Qed.

(* ------------------------------------------------------------------ *)
(** ** More fuel changes nothing *)

Lemma max_loop_extends (rec rec' : searcher) (d : Z) :
  extends rec rec' ->
  forall (moves : list (T3Action * State)) a B best o l r,
    max_loop rec d moves a B best o l = Ok r ->
    max_loop rec' d moves a B best o l = Ok r.
Proof.
  intros Hx; induction moves as [| [action child] rest IH];
    intros a B best o l r; simpl; [auto |].
  destruct (rec child a B false true (d + 1)) as [[[u x] nd] | |] eqn:E;
    simpl; try discriminate.
  rewrite (Hx _ _ _ _ _ _ _ E); simpl.
  destruct (best_choice_max u best action o nd l) as [[[b' o'] l'] | |];
    simpl; try discriminate.
  destruct (score_leb B (score_max a b')); [auto | apply IH].
Qed.

Lemma min_loop_extends (rec rec' : searcher) (d : Z) :
  extends rec rec' ->
  forall (moves : list (T3Action * State)) a B best o l r,
    min_loop rec d moves a B best o l = Ok r ->
    min_loop rec' d moves a B best o l = Ok r.
Proof.
  intros Hx; induction moves as [| [action child] rest IH];
    intros a B best o l r; simpl; [auto |].
  destruct (rec child a B true false (d + 1)) as [[[u x] nd] | |] eqn:E;
    simpl; try discriminate.
  rewrite (Hx _ _ _ _ _ _ _ E); simpl.
  destruct (best_choice_min u best action o nd l) as [[[b' o'] l'] | |];
    simpl; try discriminate.
  destruct (score_leb (score_min B b') a); [auto | apply IH].
Qed.

Lemma alphabeta_fuel_succ (fuel : nat) : extends (alphabeta fuel) (alphabeta (S fuel)).
Proof.
  induction fuel as [| fuel IH]; intros s a B is_max is_min d r; [discriminate |].
  intros E.
  change (alphabeta (S fuel) s a B is_max is_min d) with
    (if is_tie s then Ok (Half, None, d)
     else if is_win s then
       if negb is_max && is_min then Ok (One, None, d) else Ok (Zero, None, d)
     else if is_max && negb is_min then
       max_loop (alphabeta fuel) d (get_transitions s) a B NegInf None d
     else if is_min && negb is_max then
       min_loop (alphabeta fuel) d (get_transitions s) a B PosInf None d
     else Ok (Zero, None, d)) in E.
  change (alphabeta (S (S fuel)) s a B is_max is_min d) with
    (if is_tie s then Ok (Half, None, d)
     else if is_win s then
       if negb is_max && is_min then Ok (One, None, d) else Ok (Zero, None, d)
     else if is_max && negb is_min then
       max_loop (alphabeta (S fuel)) d (get_transitions s) a B NegInf None d
     else if is_min && negb is_max then
       min_loop (alphabeta (S fuel)) d (get_transitions s) a B PosInf None d
     else Ok (Zero, None, d)).
  destruct (is_tie s); [exact E |].
  destruct (is_win s); [exact E |].
  destruct (is_max && negb is_min); [exact (max_loop_extends _ _ d IH _ _ _ _ _ _ _ E) |].
  destruct (is_min && negb is_max); [exact (min_loop_extends _ _ d IH _ _ _ _ _ _ _ E) |].
  exact E.
Qed.

Lemma alphabeta_fuel_le (fuel fuel' : nat) :
  (fuel <= fuel')%nat -> extends (alphabeta fuel) (alphabeta fuel').
Proof.
  induction 1 as [| fuel' _ IH]; intros s a B is_max is_min d r E; [exact E |].
  apply alphabeta_fuel_succ, IH, E.
Qed.

End SearchFacts.

(* ------------------------------------------------------------------ *)
(** ** Termination *)

Section Termination.

Context {State : Type} `{T3StateOps State}.

(** The helpers never run out of fuel, so a loop that does was handed the
    shortage by the search of one of its children. *)
Lemma max_loop_no_fuel (rec : searcher) (d : Z) :
  forall (moves : list (T3Action * State)) a B best o l,
    max_loop rec d moves a B best o l = NoFuel ->
    exists action child a' B',
      In (action, child) moves /\ rec child a' B' false true (d + 1) = NoFuel.
Proof.
  induction moves as [| [action child] rest IH]; intros a B best o l; simpl;
    [discriminate |].
  destruct (rec child a B false true (d + 1)) as [[[u x] nd] | |] eqn:E;
    simpl; try discriminate.
  - pose proof (best_choice_max_spec u best action o nd l) as Hb.
    destruct (best_choice_max u best action o nd l) as [[[b' o'] l'] | |];
      simpl; try discriminate; [| destruct Hb].
    destruct (score_leb B (score_max a b')); [discriminate |].
    intros E'. destruct (IH _ _ _ _ _ E') as (ac & ch & a' & B' & I' & N').
    exists ac, ch, a', B'; split; [right; exact I' | exact N'].
  - intros _. exists action, child, a, B; split; [left; reflexivity | exact E].
Qed.

Lemma min_loop_no_fuel (rec : searcher) (d : Z) :
  forall (moves : list (T3Action * State)) a B best o l,
    min_loop rec d moves a B best o l = NoFuel ->
    exists action child a' B',
      In (action, child) moves /\ rec child a' B' true false (d + 1) = NoFuel.
Proof.
  induction moves as [| [action child] rest IH]; intros a B best o l; simpl;
    [discriminate |].
  destruct (rec child a B true false (d + 1)) as [[[u x] nd] | |] eqn:E;
    simpl; try discriminate.
  - pose proof (best_choice_min_spec u best action o nd l) as Hb.
    destruct (best_choice_min u best action o nd l) as [[[b' o'] l'] | |];
      simpl; try discriminate; [| destruct Hb].
    destruct (score_leb (score_min B b') a); [discriminate |].
    intros E'. destruct (IH _ _ _ _ _ E') as (ac & ch & a' & B' & I' & N').
    exists ac, ch, a', B'; split; [right; exact I' | exact N'].
  - intros _. exists action, child, a, B; split; [left; reflexivity | exact E].
Qed.

Lemma runs_returns (fuel : nat) (s : State) :
  runs fuel s ->
  forall a B is_max is_min d, exists r, alphabeta fuel s a B is_max is_min d = Ok r.
Proof.
  intros R a B is_max is_min d.
  destruct (alphabeta fuel s a B is_max is_min d) as [r | |] eqn:E.
  - exists r; reflexivity.
  - exfalso; exact (alphabeta_never_raises _ _ _ _ _ _ _ E).
  - exfalso; exact (R _ _ _ _ _ E).
Qed.

Lemma runs_le (fuel fuel' : nat) (s : State) :
  (fuel <= fuel')%nat -> runs fuel s -> runs fuel' s.
Proof.
  intros L R a B is_max is_min d.
  destruct (runs_returns fuel s R a B is_max is_min d) as [r E].
  rewrite (alphabeta_fuel_le fuel fuel' L _ _ _ _ _ _ _ E); discriminate.
Qed.

(** One amount of fuel serves all the children of a list. *)
Lemma runs_all (moves : list (T3Action * State)) :
  (forall action child, In (action, child) moves -> exists n, runs n child) ->
  exists n, forall action child, In (action, child) moves -> runs n child.
Proof.
  induction moves as [| [action child] rest IH]; intros Hall.
  - exists O; intros ? ? [].
  - destruct IH as [n Hn].
    { intros ac ch I'; apply (Hall ac ch); right; exact I'. }
    destruct (Hall action child (or_introl eq_refl)) as [m Hm].
    exists (Nat.max n m); intros ac ch [E | I'].
    + inversion E; subst; apply (runs_le m); [apply Nat.le_max_r | exact Hm].
    + apply (runs_le n); [apply Nat.le_max_l | exact (Hn ac ch I')].
Qed.

Lemma finite_game_runs (s : State) : finite_game s -> exists n, runs n s.
Proof.
  induction 1 as [s T | s T _ IH].
  - exists 1%nat; intros a B is_max is_min d; simpl.
    unfold terminal in T.
    destruct (is_tie s); [discriminate |].
    simpl in T; rewrite T.
    destruct (negb is_max && is_min); discriminate.
  - destruct (runs_all (get_transitions s) IH) as [n Hn].
    exists (S n); intros a B is_max is_min d; simpl.
    unfold terminal in T; apply orb_false_iff in T; destruct T as [-> ->].
    destruct (is_max && negb is_min).
    { intros E; apply max_loop_no_fuel in E.
      destruct E as (ac & ch & a' & B' & I' & N'). exact (Hn ac ch I' _ _ _ _ _ N'). }
    destruct (is_min && negb is_max).
    { intros E; apply min_loop_no_fuel in E.
      destruct E as (ac & ch & a' & B' & I' & N'). exact (Hn ac ch I' _ _ _ _ _ N'). }
    discriminate.
Qed.

(** On a finite game the search returns, and what it returns does not
    depend on the fuel once there is enough of it. *)
Lemma finite_game_returns (s : State) :
  finite_game s ->
  exists n, forall a B is_max is_min d,
    exists r, forall fuel, (n <= fuel)%nat ->
      alphabeta fuel s a B is_max is_min d = Ok r.
Proof.
  intros F. destruct (finite_game_runs s F) as [n R].
  exists n; intros a B is_max is_min d.
  destruct (runs_returns n s R a B is_max is_min d) as [r E].
  exists r; intros fuel L. exact (alphabeta_fuel_le n fuel L _ _ _ _ _ _ _ E).
Qed.

Lemma contract_finite_game (s : State) : contract s -> finite_game s.
Proof.
  induction 1 as [s T | s T _ _ IH].
  - apply finite_terminal; exact T.
  - apply finite_inner; [exact T | exact IH].
Qed.

End Termination.

(* ------------------------------------------------------------------ *)
(** ** What the search returns under the contract *)

Section Soundness.

Context {State : Type} `{T3StateOps State}.

(** A child's answer, seen from its parent. *)
Lemma answer_lift (s : State) (maximizing : bool) (d : Z)
    (action : T3Action) (child : State) (u : score) (x : option T3Action) (nd : Z) :
  terminal s = false ->
  In (action, child) (get_transitions s) ->
  answer child (negb maximizing) (d + 1) (u, x, nd) ->
  settled s maximizing d (u, Some action, nd).
Proof.
  intros T I' [U (n & D & R)]; unfold utility_of, depth_of in *; simpl in *.
  split; [split |].
  - exact U.
  - exists (S n); split; [simpl; lia |].
    simpl. exact (reports_step s maximizing action child n u T I' R).
  - exists action, child; split; [reflexivity | exact I'].
Qed.

Lemma max_loop_settled (rec : searcher) (s : State) (d : Z) :
  terminal s = false ->
  forall moves : list (T3Action * State),
    incl moves (get_transitions s) ->
    (forall action child, In (action, child) moves ->
       forall a B r, rec child a B false true (d + 1) = Ok r ->
                     answer child false (d + 1) r) ->
    forall a B best o l r,
      max_loop rec d moves a B best o l = Ok r ->
      settled s true d (best, o, l) \/ (best = NegInf /\ moves <> []) ->
      settled s true d r.
Proof.
  intros T; induction moves as [| [action child] rest IH];
    intros Hin Hrec a B best o l r; simpl.
  - intros E [S0 | [_ N0]]; [inversion E; subst; exact S0 | contradiction].
  - destruct (rec child a B false true (d + 1)) as [[[u x] nd] | |] eqn:E;
      simpl; try discriminate.
    pose proof (Hrec action child (or_introl eq_refl) a B _ E) as A.
    pose proof (answer_lift s true d action child u x nd T
                  (Hin _ (or_introl eq_refl)) A) as C.
    pose proof (best_choice_max_spec u best action o nd l) as Hb.
    destruct (best_choice_max u best action o nd l) as [[[b' o'] l'] | |];
      simpl; try discriminate.
    intros E' Hinc.
    assert (S' : settled s true d (b', o', l')).
    { destruct Hb as [[Q _] | [[Q (-> & -> & _)] | [Q G]]]; rewrite Q.
      - exact C.
      - exact C.
      - destruct Hinc as [S0 | [-> _]]; [exact S0 |].
        destruct A as [U _]; unfold utility_of in U; simpl in U.
        rewrite (is_utility_above_neginf u U) in G; discriminate. }
    destruct (score_leb B (score_max a b')).
    + inversion E'; subst; exact S'.
    + apply (IH (fun y Hy => Hin y (or_intror Hy))
                (fun ac ch Hy => Hrec ac ch (or_intror Hy)) _ _ _ _ _ _ E').
      left; exact S'.
Qed.

Lemma min_loop_settled (rec : searcher) (s : State) (d : Z) :
  terminal s = false ->
  forall moves : list (T3Action * State),
    incl moves (get_transitions s) ->
    (forall action child, In (action, child) moves ->
       forall a B r, rec child a B true false (d + 1) = Ok r ->
                     answer child true (d + 1) r) ->
    forall a B best o l r,
      min_loop rec d moves a B best o l = Ok r ->
      settled s false d (best, o, l) \/ (best = PosInf /\ moves <> []) ->
      settled s false d r.
Proof.
  intros T; induction moves as [| [action child] rest IH];
    intros Hin Hrec a B best o l r; simpl.
  - intros E [S0 | [_ N0]]; [inversion E; subst; exact S0 | contradiction].
  - destruct (rec child a B true false (d + 1)) as [[[u x] nd] | |] eqn:E;
      simpl; try discriminate.
    pose proof (Hrec action child (or_introl eq_refl) a B _ E) as A.
    pose proof (answer_lift s false d action child u x nd T
                  (Hin _ (or_introl eq_refl)) A) as C.
    pose proof (best_choice_min_spec u best action o nd l) as Hb.
    destruct (best_choice_min u best action o nd l) as [[[b' o'] l'] | |];
      simpl; try discriminate.
    intros E' Hinc.
    assert (S' : settled s false d (b', o', l')).
    { destruct Hb as [[Q _] | [[Q (-> & -> & _)] | [Q G]]]; rewrite Q.
      - exact C.
      - exact C.
      - destruct Hinc as [S0 | [-> _]]; [exact S0 |].
        destruct A as [U _]; unfold utility_of in U; simpl in U.
        rewrite (is_utility_below_posinf u U) in G; discriminate. }
    destruct (score_leb (score_min B b') a).
    + inversion E'; subst; exact S'.
    + apply (IH (fun y Hy => Hin y (or_intror Hy))
                (fun ac ch Hy => Hrec ac ch (or_intror Hy)) _ _ _ _ _ _ E').
      left; exact S'.
Qed.

(** Under the contract, and with the two role flags opposite: the answer is
    right, a state that is not terminal gets one of its moves, and a
    terminal state gets none. *)
Lemma alphabeta_sound (fuel : nat) :
  forall (s : State) (maximizing : bool) a B d r,
    contract s ->
    alphabeta fuel s a B maximizing (negb maximizing) d = Ok r ->
    answer s maximizing d r
    /\ (terminal s = false -> chosen s r)
    /\ (terminal s = true -> action_of r = None).
Proof.
  induction fuel as [| fuel IH]; intros s mx a B d r C; [discriminate |].
  simpl. unfold terminal.
  destruct (is_tie s) eqn:Tie.
  { intros E; inversion E; subst; clear E. split; [split |].
    - right; left; reflexivity.
    - exists O; split; [simpl; lia |].
      replace Half with (terminal_utility s mx)
        by (unfold terminal_utility; rewrite Tie; reflexivity).
      apply reports_here; unfold terminal; rewrite Tie; reflexivity.
    - split; [discriminate | reflexivity]. }
  destruct (is_win s) eqn:Win.
  { assert (R0 : reports s mx 0 (terminal_utility s mx)).
    { apply reports_here; unfold terminal; rewrite Tie, Win; reflexivity. }
    unfold terminal_utility in R0; rewrite Tie in R0.
    destruct mx; simpl; intros E; inversion E; subst; clear E;
      (split; [split; [| exists O; split; [simpl; lia | exact R0]]
              | split; [discriminate | reflexivity]]).
    - left; reflexivity.
    - right; right; reflexivity. }
  assert (T : terminal s = false) by (unfold terminal; rewrite Tie, Win; reflexivity).
  inversion C as [s' T' | s' _ NE Kids]; subst; [congruence |].
  simpl.
  destruct mx; simpl; intros E.
  - assert (S' : settled s true d r).
    { apply (max_loop_settled (alphabeta fuel) s d T (get_transitions s) (incl_refl _))
        with (a := a) (B := B) (best := NegInf) (o := None) (l := d).
      - intros action child I' a' B' r' E'.
        exact (proj1 (IH child false a' B' (d + 1) r' (Kids _ _ I') E')).
      - exact E.
      - right; split; [reflexivity | exact NE]. }
    destruct S' as [A Ch]. split; [exact A | split; [intros _; exact Ch | discriminate]].
  - assert (S' : settled s false d r).
    { apply (min_loop_settled (alphabeta fuel) s d T (get_transitions s) (incl_refl _))
        with (a := a) (B := B) (best := PosInf) (o := None) (l := d).
      - intros action child I' a' B' r' E'.
        exact (proj1 (IH child true a' B' (d + 1) r' (Kids _ _ I') E')).
      - exact E.
      - right; split; [reflexivity | exact NE]. }
    destruct S' as [A Ch]. split; [exact A | split; [intros _; exact Ch | discriminate]].
Qed.

(** Whatever the flags, the utility is one of the three. *)
Lemma alphabeta_utility (fuel : nat) (s : State) a B is_max is_min d r :
  contract s ->
  alphabeta fuel s a B is_max is_min d = Ok r ->
  is_utility (utility_of r).
Proof.
  intros C E.
  destruct (Bool.bool_dec is_min (negb is_max)) as [-> | N].
  { exact (proj1 (proj1 (alphabeta_sound fuel s is_max a B d r C E))). }
  destruct fuel as [| fuel]; [discriminate |].
  simpl in E.
  destruct (is_tie s); [inversion E; right; left; reflexivity |].
  destruct (is_win s).
  { destruct (negb is_max && is_min); inversion E;
      [right; right; reflexivity | left; reflexivity]. }
  destruct is_max, is_min; simpl in E; try (exfalso; apply N; reflexivity);
    inversion E; left; reflexivity.
Qed.

End Soundness.

(* ------------------------------------------------------------------ *)
(** ** The calls of a run *)

Section Calls.

Context {State : Type} `{T3StateOps State}.

Lemma max_loop_log_erases (lrec : logged_searcher) (rec : searcher) (d : Z) :
  erases lrec rec ->
  forall (moves : list (T3Action * State)) a B best o l,
    fst (max_loop_log lrec d moves a B best o l) = max_loop rec d moves a B best o l.
Proof.
  intros Hx; induction moves as [| [action child] rest IH];
    intros a B best o l; simpl; [reflexivity |].
  rewrite <- (Hx child a B false true (d + 1)).
  destruct (lrec child a B false true (d + 1)) as [[[[u x] nd] | |] seen];
    simpl; try reflexivity.
  destruct (best_choice_max u best action o nd l) as [[[b' o'] l'] | |];
    simpl; try reflexivity.
  destruct (score_leb B (score_max a b')); [reflexivity |].
  rewrite <- IH.
  destruct (max_loop_log lrec d rest (score_max a b') B b' o' l'); reflexivity.
Qed.

Lemma min_loop_log_erases (lrec : logged_searcher) (rec : searcher) (d : Z) :
  erases lrec rec ->
  forall (moves : list (T3Action * State)) a B best o l,
    fst (min_loop_log lrec d moves a B best o l) = min_loop rec d moves a B best o l.
Proof.
  intros Hx; induction moves as [| [action child] rest IH];
    intros a B best o l; simpl; [reflexivity |].
  rewrite <- (Hx child a B true false (d + 1)).
  destruct (lrec child a B true false (d + 1)) as [[[[u x] nd] | |] seen];
    simpl; try reflexivity.
  destruct (best_choice_min u best action o nd l) as [[[b' o'] l'] | |];
    simpl; try reflexivity.
  destruct (score_leb (score_min B b') a); [reflexivity |].
  rewrite <- IH.
  destruct (min_loop_log lrec d rest a (score_min B b') b' o' l'); reflexivity.
Qed.

Lemma alphabeta_log_erases (fuel : nat) : erases (alphabeta_log fuel) (alphabeta fuel).
Proof.
  induction fuel as [| fuel IH]; intros s a B is_max is_min d; simpl; [reflexivity |].
  destruct (is_tie s); [reflexivity |].
  destruct (is_win s); [destruct (negb is_max && is_min); reflexivity |].
  destruct (is_max && negb is_min).
  { rewrite <- (max_loop_log_erases _ _ d IH).
    destruct (max_loop_log (alphabeta_log fuel) d (get_transitions s) a B NegInf None d);
      reflexivity. }
  destruct (is_min && negb is_max).
  { rewrite <- (min_loop_log_erases _ _ d IH).
    destruct (min_loop_log (alphabeta_log fuel) d (get_transitions s) a B PosInf None d);
      reflexivity. }
  reflexivity.
Qed.

Lemma even_next (d : Z) : Z.even (d + 1) = negb (Z.even d).
Proof. rewrite Z.add_1_r, Z.even_succ, <- Z.negb_even; reflexivity. Qed.

Lemma max_loop_log_flags (lrec : logged_searcher) (d : Z) :
  flags_kept lrec ->
  Z.even d = true ->
  forall (moves : list (T3Action * State)) a B best o l,
    Forall well_flagged (snd (max_loop_log lrec d moves a B best o l)).
Proof.
  intros Hk Ev; induction moves as [| [action child] rest IH];
    intros a B best o l; simpl; [constructor |].
  pose proof (Hk child a B (d + 1)) as Hc.
  rewrite even_next, Ev in Hc; simpl in Hc.
  destruct (lrec child a B false true (d + 1)) as [[[[u x] nd] | |] seen];
    simpl in *; try exact Hc.
  destruct (best_choice_max u best action o nd l) as [[[b' o'] l'] | |];
    simpl; try exact Hc.
  destruct (score_leb B (score_max a b')); [exact Hc |].
  specialize (IH (score_max a b') B b' o' l').
  destruct (max_loop_log lrec d rest (score_max a b') B b' o' l') as [r' later];
    simpl in *.
  apply Forall_app; split; assumption.
Qed.

Lemma min_loop_log_flags (lrec : logged_searcher) (d : Z) :
  flags_kept lrec ->
  Z.even d = false ->
  forall (moves : list (T3Action * State)) a B best o l,
    Forall well_flagged (snd (min_loop_log lrec d moves a B best o l)).
Proof.
  intros Hk Ev; induction moves as [| [action child] rest IH];
    intros a B best o l; simpl; [constructor |].
  pose proof (Hk child a B (d + 1)) as Hc.
  rewrite even_next, Ev in Hc; simpl in Hc.
  destruct (lrec child a B true false (d + 1)) as [[[[u x] nd] | |] seen];
    simpl in *; try exact Hc.
  destruct (best_choice_min u best action o nd l) as [[[b' o'] l'] | |];
    simpl; try exact Hc.
  destruct (score_leb (score_min B b') a); [exact Hc |].
  specialize (IH a (score_min B b') b' o' l').
  destruct (min_loop_log lrec d rest a (score_min B b') b' o' l') as [r' later];
    simpl in *.
  apply Forall_app; split; assumption.
Qed.

Lemma alphabeta_log_flags (fuel : nat) : flags_kept (alphabeta_log fuel).
Proof.
  induction fuel as [| fuel IH]; intros s a B d; simpl; [constructor |].
  assert (W : forall b, b <> FallThrough ->
                well_flagged (mkCall s a B (Z.even d) (negb (Z.even d)) d b)).
  { intros b Nb; repeat split; simpl; [| exact Nb].
    rewrite negb_involutive; reflexivity. }
  destruct (is_tie s); [repeat constructor; apply W; discriminate |].
  destruct (is_win s).
  { destruct (negb (Z.even d) && negb (Z.even d));
      repeat constructor; apply W; discriminate. }
  destruct (Z.even d) eqn:Ev; simpl.
  - pose proof (max_loop_log_flags _ d IH Ev (get_transitions s) a B NegInf None d) as L.
    destruct (max_loop_log (alphabeta_log fuel) d (get_transitions s) a B NegInf None d);
      simpl in *.
    constructor; [apply W; discriminate | exact L].
  - pose proof (min_loop_log_flags _ d IH Ev (get_transitions s) a B PosInf None d) as L.
    destruct (min_loop_log (alphabeta_log fuel) d (get_transitions s) a B PosInf None d);
      simpl in *.
    constructor; [apply W; discriminate | exact L].
Qed.

(** The first call of a run is the one [choose] makes. *)
Lemma choose_log_head (fuel : nat) (s : State) :
  exists b rest,
    choose_log (S fuel) s = mkCall s NegInf PosInf true false 0 b :: rest.
Proof.
  unfold choose_log; simpl.
  destruct (is_tie s); [eexists; eexists; reflexivity |].
  destruct (is_win s); [eexists; eexists; reflexivity |].
  destruct (max_loop_log (alphabeta_log fuel) 0 (get_transitions s)
              NegInf PosInf NegInf None 0).
  eexists; eexists; reflexivity.
Qed.

End Calls.

(* ------------------------------------------------------------------ *)
(** ** The example positions *)

(** Proves [contract] for a position written out in full. *)
Ltac board_contract :=
  lazymatch goal with
  | |- contract _ =>
      first
        [ apply contract_terminal; reflexivity
        | apply contract_inner;
          [ reflexivity
          | discriminate
          | simpl; intros ? ? Hin;
            repeat (destruct Hin as [Hin | Hin];
                    [inversion Hin; subst; clear Hin; board_contract |]);
            contradiction ] ]
  end.

Lemma pruning_board_contract : contract pruning_board.
Proof. board_contract. Qed.

Lemma tie_board_plies (n : nat) : plies_to_terminal tie_board n -> n = O.
Proof.
  intros P; inversion P as [s T | s action child m T I' P']; subst;
    [reflexivity | discriminate T].
Qed.

(* ------------------------------------------------------------------ *)
(** ** Pruning keeps the utility *)

Section PruningUtility.

Context {State : Type} `{T3StateOps State}.

Lemma rank_inj (x y : score) : rank x = rank y -> x = y.
Proof. intros E; apply score_eqb_eq; unfold score_eqb; apply Z.eqb_eq; exact E. Qed.

Lemma rank_bounds (x : score) : -1 <= rank x <= 3.
Proof. destruct x; simpl; lia. Qed.

Lemma rank_score_max (a b : score) : rank (score_max a b) = Z.max (rank a) (rank b).
Proof.
  unfold score_max, score_gtb.
  destruct (rank a <? rank b) eqn:L;
    [apply Z.ltb_lt in L | apply Z.ltb_ge in L]; lia.
Qed.

Lemma rank_score_min (a b : score) : rank (score_min a b) = Z.min (rank a) (rank b).
Proof.
  unfold score_min, score_ltb.
  destruct (rank b <? rank a) eqn:L;
    [apply Z.ltb_lt in L | apply Z.ltb_ge in L]; lia.
Qed.

Lemma score_leb_le (x y : score) : score_leb x y = true <-> rank x <= rank y.
Proof. apply Z.leb_le. Qed.

Lemma score_leb_gt (x y : score) : score_leb x y = false <-> rank y < rank x.
Proof. apply Z.leb_gt. Qed.

(** The utility the helpers return is the larger (for max) or the smaller
    (for min) of the two they are given. *)
Lemma best_choice_max_rank (u b : score) action o nd ld r :
  best_choice_max u b action o nd ld = Ok r ->
  rank (utility_of r) = Z.max (rank u) (rank b).
Proof.
  intros E. pose proof (best_choice_max_spec u b action o nd ld) as S'.
  rewrite E in S'. unfold score_gtb in S'.
  destruct S' as [[-> [G | [-> _]]] | [[-> (-> & _)] | [-> G]]];
    unfold utility_of; simpl; lia.
Qed.

Lemma best_choice_min_rank (u b : score) action o nd ld r :
  best_choice_min u b action o nd ld = Ok r ->
  rank (utility_of r) = Z.min (rank u) (rank b).
Proof.
  intros E. pose proof (best_choice_min_spec u b action o nd ld) as S'.
  rewrite E in S'. unfold score_ltb in S'.
  destruct S' as [[-> [G | [-> _]]] | [[-> (-> & _)] | [-> G]]];
    unfold utility_of; simpl; lia.
Qed.

(** The exhaustive loops never return less (max) or more (min) than the
    incumbent they start from. *)
Lemma minimax_max_loop_ge (rec : plain_searcher) (d : Z) :
  forall (moves : list (T3Action * State)) best o l r,
    minimax_max_loop rec d moves best o l = Ok r ->
    rank best <= rank (utility_of r).
Proof.
  induction moves as [| [action child] rest IH]; intros best o l r; simpl.
  - intros E; inversion E; unfold utility_of; simpl; lia.
  - destruct (rec child false true (d + 1)) as [[[u x] nd] | |];
      simpl; try discriminate.
    destruct (best_choice_max u best action o nd l) as [[[b' o'] l'] | |] eqn:Eb;
      simpl; try discriminate.
    intros E. apply IH in E. apply best_choice_max_rank in Eb.
    unfold utility_of in Eb; simpl in Eb. lia.
Qed.

Lemma minimax_min_loop_le (rec : plain_searcher) (d : Z) :
  forall (moves : list (T3Action * State)) best o l r,
    minimax_min_loop rec d moves best o l = Ok r ->
    rank (utility_of r) <= rank best.
Proof.
  induction moves as [| [action child] rest IH]; intros best o l r; simpl.
  - intros E; inversion E; unfold utility_of; simpl; lia.
  - destruct (rec child true false (d + 1)) as [[[u x] nd] | |];
      simpl; try discriminate.
    destruct (best_choice_min u best action o nd l) as [[[b' o'] l'] | |] eqn:Eb;
      simpl; try discriminate.
    intros E. apply IH in E. apply best_choice_min_rank in Eb.
    unfold utility_of in Eb; simpl in Eb. lia.
Qed.

Lemma max_loop_within (rec : searcher) (rec' : plain_searcher) (d d' : Z) (a0 B : score) :
  rank a0 < rank B ->
  forall moves : list (T3Action * State),
    agree_on rec rec' moves ->
    forall a best o l vbest vo vl r r',
      rank a = Z.max (rank a0) (rank best) ->
      rank a < rank B ->
      within a0 B best vbest ->
      max_loop rec d moves a B best o l = Ok r ->
      minimax_max_loop rec' d' moves vbest vo vl = Ok r' ->
      within a0 B (utility_of r) (utility_of r').
Proof.
  intros W0; induction moves as [| [action child] rest IH];
    intros Hag a best o l vbest vo vl r r' Ea Wa Hw; simpl.
  - intros E E'; inversion E; inversion E'; subst; exact Hw.
  - destruct (rec child a B false true (d + 1)) as [[[u x] nd] | |] eqn:Ec;
      simpl; try discriminate.
    destruct (rec' child false true (d' + 1)) as [[[v y] nd'] | |] eqn:Ec';
      simpl; try (intros _; discriminate).
    pose proof (Hag action child (or_introl eq_refl) _ _ _ _ _ _ _ _ Wa Ec Ec') as Hc.
    unfold utility_of in Hc; simpl in Hc.
    destruct (best_choice_max u best action o nd l) as [[[b' o'] l'] | |] eqn:Eb;
      simpl; try discriminate.
    destruct (best_choice_max v vbest action vo nd' vl) as [[[vb' vo'] vl'] | |] eqn:Eb';
      simpl; try (intros _; discriminate).
    apply best_choice_max_rank in Eb, Eb'.
    unfold utility_of in Eb, Eb'; simpl in Eb, Eb'.
    assert (Hw' : within a0 B b' vb').
    { destruct Hw as (W1 & W2 & W3), Hc as (C1 & C2 & C3).
      unfold within; repeat split; intros; lia. }
    destruct (score_leb B (score_max a b')) eqn:Cut.
    + intros E E'; inversion E; subst; clear E.
      apply minimax_max_loop_ge in E'.
      apply score_leb_le in Cut; rewrite rank_score_max in Cut.
      unfold utility_of in *; simpl in *.
      destruct Hw' as (W1 & W2 & W3).
      unfold within; repeat split; intros; lia.
    + apply score_leb_gt in Cut; rewrite rank_score_max in Cut.
      apply (IH (fun ac ch Hy => Hag ac ch (or_intror Hy))); try assumption.
      * rewrite rank_score_max; lia.
      * rewrite rank_score_max; lia.
Qed.

Lemma min_loop_within (rec : searcher) (rec' : plain_searcher) (d d' : Z) (a B0 : score) :
  rank a < rank B0 ->
  forall moves : list (T3Action * State),
    agree_on rec rec' moves ->
    forall B best o l vbest vo vl r r',
      rank B = Z.min (rank B0) (rank best) ->
      rank a < rank B ->
      within a B0 best vbest ->
      min_loop rec d moves a B best o l = Ok r ->
      minimax_min_loop rec' d' moves vbest vo vl = Ok r' ->
      within a B0 (utility_of r) (utility_of r').
Proof.
  intros W0; induction moves as [| [action child] rest IH];
    intros Hag B best o l vbest vo vl r r' Ea Wa Hw; simpl.
  - intros E E'; inversion E; inversion E'; subst; exact Hw.
  - destruct (rec child a B true false (d + 1)) as [[[u x] nd] | |] eqn:Ec;
      simpl; try discriminate.
    destruct (rec' child true false (d' + 1)) as [[[v y] nd'] | |] eqn:Ec';
      simpl; try (intros _; discriminate).
    pose proof (Hag action child (or_introl eq_refl) _ _ _ _ _ _ _ _ Wa Ec Ec') as Hc.
    unfold utility_of in Hc; simpl in Hc.
    destruct (best_choice_min u best action o nd l) as [[[b' o'] l'] | |] eqn:Eb;
      simpl; try discriminate.
    destruct (best_choice_min v vbest action vo nd' vl) as [[[vb' vo'] vl'] | |] eqn:Eb';
      simpl; try (intros _; discriminate).
    apply best_choice_min_rank in Eb, Eb'.
    unfold utility_of in Eb, Eb'; simpl in Eb, Eb'.
    assert (Hw' : within a B0 b' vb').
    { destruct Hw as (W1 & W2 & W3), Hc as (C1 & C2 & C3).
      unfold within; repeat split; intros; lia. }
    destruct (score_leb (score_min B b') a) eqn:Cut.
    + intros E E'; inversion E; subst; clear E.
      apply minimax_min_loop_le in E'.
      apply score_leb_le in Cut; rewrite rank_score_min in Cut.
      unfold utility_of in *; simpl in *.
      destruct Hw' as (W1 & W2 & W3).
      unfold within; repeat split; intros; lia.
    + apply score_leb_gt in Cut; rewrite rank_score_min in Cut.
      apply (IH (fun ac ch Hy => Hag ac ch (or_intror Hy))); try assumption.
      * rewrite rank_score_min; lia.
      * rewrite rank_score_min; lia.
Qed.

Lemma within_refl (a B u : score) : within a B u u.
Proof. unfold within; repeat split; intros; lia. Qed.

Lemma alphabeta_within (fuel : nat) :
  forall fuel' (s : State) a B is_max is_min d d' r r',
    rank a < rank B ->
    alphabeta fuel s a B is_max is_min d = Ok r ->
    minimax fuel' s is_max is_min d' = Ok r' ->
    within a B (utility_of r) (utility_of r').
Proof.
  induction fuel as [| fuel IH]; intros fuel' s a B is_max is_min d d' r r' W;
    [discriminate |].
  destruct fuel' as [| fuel']; [intros _; discriminate |].
  simpl.
  destruct (is_tie s).
  { intros E E'; inversion E; inversion E'; apply within_refl. }
  destruct (is_win s).
  { destruct (negb is_max && is_min); intros E E'; inversion E; inversion E';
      apply within_refl. }
  assert (Hag : agree_on (alphabeta fuel) (minimax fuel') (get_transitions s)).
  { intros action child _ a1 B1 m1 m2 d1 d2 r1 r2. apply IH. }
  pose proof (rank_bounds a) as Ra. pose proof (rank_bounds B) as RB.
  destruct (is_max && negb is_min).
  { apply (max_loop_within _ _ d d' a B W _ Hag);
      [simpl; lia | exact W | apply within_refl]. }
  destruct (is_min && negb is_max).
  { apply (min_loop_within _ _ d d' a B W _ Hag);
      [simpl; lia | exact W | apply within_refl]. }
  intros E E'; inversion E; inversion E'; apply within_refl.
Qed.

(** With the full window of [choose], the pruned search and the exhaustive
    search return the same utility, on every state. *)
Lemma alphabeta_utility_is_minimax (fuel fuel' : nat) (s : State)
    (is_max is_min : bool) (d d' : Z) (r r' : triple) :
  alphabeta fuel s NegInf PosInf is_max is_min d = Ok r ->
  minimax fuel' s is_max is_min d' = Ok r' ->
  utility_of r = utility_of r'.
Proof.
  intros E E'.
  assert (W : rank NegInf < rank PosInf) by (simpl; lia).
  destruct (alphabeta_within fuel fuel' s _ _ _ _ _ _ _ _ W E E') as (W1 & W2 & W3).
  apply rank_inj. simpl in W1, W2, W3.
  destruct (utility_of r), (utility_of r'); simpl in *; lia.
Qed.

End PruningUtility.

(* ------------------------------------------------------------------ *)
(** ** A loop ends early only when the window has closed *)

Section Exhaustive.

Context {State : Type} `{T3StateOps State}.

Lemma alphabeta_log_announces (fuel : nat) : announces (alphabeta_log fuel).
Proof.
  intros s a B is_max is_min d r log.
  destruct fuel as [| fuel]; simpl; [discriminate |].
  assert (W : forall b rest (x : outcome triple),
            (x, mkCall s a B is_max is_min d b :: rest) = (Ok r, log) ->
            searched log s d).
  { intros b rest x E; inversion E; subst.
    eexists; split; [left; reflexivity | split; reflexivity]. }
  destruct (is_tie s); [apply W |].
  destruct (is_win s); [destruct (negb is_max && is_min); apply W |].
  destruct (is_max && negb is_min).
  { destruct (max_loop_log (alphabeta_log fuel) d (get_transitions s) a B NegInf None d).
    apply W. }
  destruct (is_min && negb is_max).
  { destruct (min_loop_log (alphabeta_log fuel) d (get_transitions s) a B PosInf None d).
    apply W. }
  apply W.
Qed.

Lemma searched_app_l (log later : list (call State)) (child : State) (d : Z) :
  searched log child d -> searched (log ++ later) child d.
Proof.
  intros (c & I' & E); exists c; split; [apply in_or_app; left; exact I' | exact E].
Qed.

Lemma searched_app_r (log later : list (call State)) (child : State) (d : Z) :
  searched later child d -> searched (log ++ later) child d.
Proof.
  intros (c & I' & E); exists c; split; [apply in_or_app; right; exact I' | exact E].
Qed.

Lemma max_loop_log_covers (lrec : logged_searcher) (d : Z) :
  announces lrec ->
  forall (moves : list (T3Action * State)) a B best o l r log,
    max_loop_log lrec d moves a B best o l = (Ok r, log) ->
    rank best <= rank (utility_of r)
    /\ ((forall action child, In (action, child) moves -> searched log child (d + 1))
        \/ score_leb B (score_max a (utility_of r)) = true).
Proof.
  intros Han; induction moves as [| [action child] rest IH];
    intros a B best o l r log; simpl.
  - intros E; inversion E; subst; unfold utility_of; simpl.
    split; [lia | left; intros ? ? []].
  - destruct (lrec child a B false true (d + 1)) as [[[[u x] nd] | |] seen] eqn:Ec;
      try discriminate.
    pose proof (Han _ _ _ _ _ _ _ _ Ec) as Hs.
    destruct (best_choice_max u best action o nd l) as [[[b' o'] l'] | |] eqn:Eb;
      try discriminate.
    apply best_choice_max_rank in Eb; unfold utility_of in Eb; simpl in Eb.
    destruct (score_leb B (score_max a b')) eqn:Cut.
    + intros E; inversion E; subst; unfold utility_of; simpl.
      split; [lia | right; exact Cut].
    + destruct (max_loop_log lrec d rest (score_max a b') B b' o' l')
        as [r' later] eqn:El.
      intros E; inversion E; subst; clear E.
      destruct (IH _ _ _ _ _ _ _ El) as [Ge Cov].
      split; [lia |].
      destruct Cov as [All | Closed].
      * left; intros ac ch [Q | I'].
        -- inversion Q; subst; apply searched_app_l; exact Hs.
        -- apply searched_app_r; exact (All ac ch I').
      * right. apply score_leb_le in Closed. apply score_leb_le.
        rewrite !rank_score_max in *. lia.
Qed.

Lemma min_loop_log_covers (lrec : logged_searcher) (d : Z) :
  announces lrec ->
  forall (moves : list (T3Action * State)) a B best o l r log,
    min_loop_log lrec d moves a B best o l = (Ok r, log) ->
    rank (utility_of r) <= rank best
    /\ ((forall action child, In (action, child) moves -> searched log child (d + 1))
        \/ score_leb (score_min B (utility_of r)) a = true).
Proof.
  intros Han; induction moves as [| [action child] rest IH];
    intros a B best o l r log; simpl.
  - intros E; inversion E; subst; unfold utility_of; simpl.
    split; [lia | left; intros ? ? []].
  - destruct (lrec child a B true false (d + 1)) as [[[[u x] nd] | |] seen] eqn:Ec;
      try discriminate.
    pose proof (Han _ _ _ _ _ _ _ _ Ec) as Hs.
    destruct (best_choice_min u best action o nd l) as [[[b' o'] l'] | |] eqn:Eb;
      try discriminate.
    apply best_choice_min_rank in Eb; unfold utility_of in Eb; simpl in Eb.
    destruct (score_leb (score_min B b') a) eqn:Cut.
    + intros E; inversion E; subst; unfold utility_of; simpl.
      split; [lia | right; exact Cut].
    + destruct (min_loop_log lrec d rest a (score_min B b') b' o' l')
        as [r' later] eqn:El.
      intros E; inversion E; subst; clear E.
      destruct (IH _ _ _ _ _ _ _ El) as [Ge Cov].
      split; [lia |].
      destruct Cov as [All | Closed].
      * left; intros ac ch [Q | I'].
        -- inversion Q; subst; apply searched_app_l; exact Hs.
        -- apply searched_app_r; exact (All ac ch I').
      * right. apply score_leb_le in Closed. apply score_leb_le.
        rewrite !rank_score_min in *. lia.
Qed.

(** A call on a state that is not terminal has searched every child of
    the state, unless it ended with [B <= a]. *)
Lemma alphabeta_log_covers (fuel : nat) (s : State) (maximizing : bool)
    (a B : score) (d : Z) (r : triple) (log : list (call State)) :
  alphabeta_log fuel s a B maximizing (negb maximizing) d = (Ok r, log) ->
  is_tie s = false ->
  is_win s = false ->
  (forall action child,
     In (action, child) (get_transitions s) -> searched log child (d + 1))
  \/ (if maximizing then score_leb B (score_max a (utility_of r))
      else score_leb (score_min B (utility_of r)) a) = true.
Proof.
  destruct fuel as [| fuel]; simpl; [discriminate |].
  intros E T W; rewrite T, W in E; revert E.
  destruct maximizing; simpl.
  - destruct (max_loop_log (alphabeta_log fuel) d (get_transitions s) a B NegInf None d)
      as [r' below] eqn:El.
    intros E; inversion E; subst; clear E.
    destruct (max_loop_log_covers _ d (alphabeta_log_announces fuel) _ _ _ _ _ _ _ _ El)
      as [_ [All | Closed]]; [left | right; exact Closed].
    intros ac ch I'. destruct (All ac ch I') as (c & Ic & Q).
    exists c; split; [right; exact Ic | exact Q].
  - destruct (min_loop_log (alphabeta_log fuel) d (get_transitions s) a B PosInf None d)
      as [r' below] eqn:El.
    intros E; inversion E; subst; clear E.
    destruct (min_loop_log_covers _ d (alphabeta_log_announces fuel) _ _ _ _ _ _ _ _ El)
      as [_ [All | Closed]]; [left | right; exact Closed].
    intros ac ch I'. destruct (All ac ch I') as (c & Ic & Q).
    exists c; split; [right; exact Ic | exact Q].
Qed.

End Exhaustive.

(* ------------------------------------------------------------------ *)
(** ** Every call of a run is a run *)

Section SubrunFacts.

Context {State : Type} `{T3StateOps State}.

Lemma subrun_wider (fuel fuel' : nat) (log log' : list (call State)) (c : call State) :
  (fuel <= fuel')%nat -> incl log log' -> subrun fuel log c -> subrun fuel' log' c.
Proof.
  intros Lf Li (fc & rc & lc & Lc & E & I').
  exists fc, rc, lc; split; [lia | split; [exact E |]].
  intros x Hx; apply Li, I', Hx.
Qed.

Lemma max_loop_log_subruns (fuel : nat) (d : Z) :
  subruns_at fuel ->
  forall (moves : list (T3Action * State)) a B best o l r log,
    max_loop_log (alphabeta_log fuel) d moves a B best o l = (Ok r, log) ->
    forall c, In c log -> subrun fuel log c.
Proof.
  intros Hs; induction moves as [| [action child] rest IH];
    intros a B best o l r log; simpl.
  - intros E; inversion E; subst; intros c [].
  - destruct (alphabeta_log fuel child a B false true (d + 1))
      as [[[[u x] nd] | |] seen] eqn:Ec; try discriminate.
    pose proof (Hs _ _ _ _ _ _ _ _ Ec) as Hc.
    destruct (best_choice_max u best action o nd l) as [[[b' o'] l'] | |];
      try discriminate.
    destruct (score_leb B (score_max a b')).
    + intros E; inversion E; subst; exact Hc.
    + destruct (max_loop_log (alphabeta_log fuel) d rest (score_max a b') B b' o' l')
        as [r' later] eqn:El.
      intros E; inversion E; subst; clear E.
      intros c Hin; apply in_app_or in Hin; destruct Hin as [Hin | Hin].
      * apply (subrun_wider fuel fuel seen); [lia | | exact (Hc c Hin)].
        intros y Hy; apply in_or_app; left; exact Hy.
      * apply (subrun_wider fuel fuel later); [lia | | exact (IH _ _ _ _ _ _ _ El c Hin)].
        intros y Hy; apply in_or_app; right; exact Hy.
Qed.

Lemma min_loop_log_subruns (fuel : nat) (d : Z) :
  subruns_at fuel ->
  forall (moves : list (T3Action * State)) a B best o l r log,
    min_loop_log (alphabeta_log fuel) d moves a B best o l = (Ok r, log) ->
    forall c, In c log -> subrun fuel log c.
Proof.
  intros Hs; induction moves as [| [action child] rest IH];
    intros a B best o l r log; simpl.
  - intros E; inversion E; subst; intros c [].
  - destruct (alphabeta_log fuel child a B true false (d + 1))
      as [[[[u x] nd] | |] seen] eqn:Ec; try discriminate.
    pose proof (Hs _ _ _ _ _ _ _ _ Ec) as Hc.
    destruct (best_choice_min u best action o nd l) as [[[b' o'] l'] | |];
      try discriminate.
    destruct (score_leb (score_min B b') a).
    + intros E; inversion E; subst; exact Hc.
    + destruct (min_loop_log (alphabeta_log fuel) d rest a (score_min B b') b' o' l')
        as [r' later] eqn:El.
      intros E; inversion E; subst; clear E.
      intros c Hin; apply in_app_or in Hin; destruct Hin as [Hin | Hin].
      * apply (subrun_wider fuel fuel seen); [lia | | exact (Hc c Hin)].
        intros y Hy; apply in_or_app; left; exact Hy.
      * apply (subrun_wider fuel fuel later); [lia | | exact (IH _ _ _ _ _ _ _ El c Hin)].
        intros y Hy; apply in_or_app; right; exact Hy.
Qed.

Lemma alphabeta_log_subruns (fuel : nat) : subruns_at fuel.
Proof.
  induction fuel as [| fuel IH]; intros s a B is_max is_min d r log E;
    [discriminate |].
  assert (Root : forall b rest,
            log = mkCall s a B is_max is_min d b :: rest ->
            (forall c, In c rest -> subrun fuel rest c) ->
            forall c, In c log -> subrun (S fuel) log c).
  { intros b rest -> Hrest c [<- | Hin].
    - exists (S fuel), r, (mkCall s a B is_max is_min d b :: rest).
      split; [lia | split; [exact E | apply incl_refl]].
    - apply (subrun_wider fuel (S fuel) rest); [lia | | exact (Hrest c Hin)].
      intros y Hy; right; exact Hy. }
  pose proof E as E0. simpl in E0.
  destruct (is_tie s).
  { inversion E0; subst. eapply Root; [reflexivity | intros c []]. }
  destruct (is_win s).
  { destruct (negb is_max && is_min); inversion E0; subst;
      (eapply Root; [reflexivity | intros c []]). }
  destruct (is_max && negb is_min).
  { destruct (max_loop_log (alphabeta_log fuel) d (get_transitions s) a B NegInf None d)
      as [r' below'] eqn:El.
    inversion E0; subst.
    eapply Root; [reflexivity |].
    exact (max_loop_log_subruns fuel d IH _ _ _ _ _ _ _ _ El). }
  destruct (is_min && negb is_max).
  { destruct (min_loop_log (alphabeta_log fuel) d (get_transitions s) a B PosInf None d)
      as [r' below'] eqn:El.
    inversion E0; subst.
    eapply Root; [reflexivity |].
    exact (min_loop_log_subruns fuel d IH _ _ _ _ _ _ _ _ El). }
  inversion E0; subst. eapply Root; [reflexivity | intros c []].
Qed.

(** In a run of [choose] that returned, every call returned as well, and
    every call on a state that is not terminal searched each child of the
    state, in the same run, unless it ended with its window closed. *)
Lemma choose_run_exhaustive (fuel : nat) (s : State) (r : triple)
    (log : list (call State)) :
  alphabeta_log fuel s NegInf PosInf true false 0 = (Ok r, log) ->
  forall c, In c log ->
    exists r_c,
      alphabeta fuel (call_state c) (call_a c) (call_B c)
                (call_is_max c) (call_is_min c) (call_depth c) = Ok r_c
      /\ (is_tie (call_state c) = true
          \/ is_win (call_state c) = true
          \/ (forall action child,
                In (action, child) (get_transitions (call_state c)) ->
                exists c', In c' log /\ call_state c' = child
                           /\ call_depth c' = call_depth c + 1)
          \/ window_closed (call_is_max c) (call_a c) (call_B c) r_c = true).
Proof.
  intros E c Hin.
  destruct (alphabeta_log_subruns fuel _ _ _ _ _ _ _ _ E c Hin)
    as (fc & rc & lc & Lc & Ec & Ic).
  exists rc; split.
  - apply (alphabeta_fuel_le fc fuel Lc).
    rewrite <- (alphabeta_log_erases fc), Ec; reflexivity.
  - pose proof (alphabeta_log_flags fuel s NegInf PosInf 0) as Fl.
    simpl in Fl. rewrite E in Fl; simpl in Fl.
    rewrite Forall_forall in Fl. destruct (Fl c Hin) as (Opp & _ & _).
    assert (Opp' : call_is_min c = negb (call_is_max c))
      by (rewrite Opp, negb_involutive; reflexivity).
    rewrite Opp' in Ec.
    destruct (is_tie (call_state c)) eqn:Tie; [left; reflexivity |].
    destruct (is_win (call_state c)) eqn:Win; [right; left; reflexivity |].
    right; right.
    destruct (alphabeta_log_covers fc _ _ _ _ _ _ _ Ec Tie Win) as [All | Closed].
    + left; intros action child I'.
      destruct (All action child I') as (c' & Ic' & Q).
      exists c'; split; [apply Ic, Ic' | exact Q].
    + right; exact Closed.
Qed.

End SubrunFacts.

(* ------------------------------------------------------------------ *)
(** ** Pruning against exhaustive search *)

(** C1: on [pruning_board], a position within the contract, the pruned
    search and the exhaustive search with the same tie-breaking return the
    same utility 0.5 (as they do on every state, by
    [alphabeta_utility_is_minimax]) but different actions.  The pruned
    search returns the second move, because the search of that move stops
    at the tie and reports it at depth 2, ahead of the first move's tie at
    depth 3; the exhaustive value of the second move is 0, a loss. *)
Theorem pruning_changes_the_chosen_action :
  contract pruning_board
  /\ (forall fuel,
        alphabeta_choice (4 + fuel) pruning_board = Ok (Half, Some (act 1 0 1)))
  /\ (forall fuel,
        minimax_choice (4 + fuel) pruning_board = Ok (Half, Some (act 0 0 1)))
  /\ (forall fuel, choose (4 + fuel) pruning_board = Ok (Some (act 1 0 1)))
  /\ (forall fuel,
        minimax (2 + fuel) tie_or_loss false true 1 = Ok (Zero, Some (act 0 2 1), 2))
  /\ (forall fuel,
        minimax (3 + fuel) slow_tie false true 1 = Ok (Half, Some (act 0 1 1), 3)).
Proof.
  split; [exact pruning_board_contract |].
  repeat split; intros fuel; reflexivity.
Qed.

(** C3: the helpers prefer the smaller depth, but the engine does not
    always select the action whose decisive terminal lies at the smallest
    depth.  On [depth_board], a position within the contract, both moves
    are worth 0.5; the first reaches its tie at depth 3 and the second at
    depth 2.  The exhaustive search returns the second move with depth 2.
    The pruned search of the second move is entered with [a = 0.5], meets
    the tie at depth 4 first, ends on [B <= a] before the tie at depth 2,
    and reports depth 4; [choose] therefore keeps the first move, at
    depth 3. *)
Theorem pruning_hides_the_smaller_depth :
  contract depth_board
  /\ (forall fuel,
        minimax (3 + fuel) slow_tie false true 1 = Ok (Half, Some (act 0 1 1), 3))
  /\ (forall fuel,
        minimax (4 + fuel) far_or_near_tie false true 1
        = Ok (Half, Some (act 0 2 1), 2))
  /\ (forall fuel,
        minimax (5 + fuel) depth_board true false 0
        = Ok (Half, Some (act 1 0 1), 2))
  /\ (forall fuel,
        alphabeta (4 + fuel) far_or_near_tie Half PosInf false true 1
        = Ok (Half, Some (act 0 1 1), 4))
  /\ (forall fuel,
        alphabeta (5 + fuel) depth_board NegInf PosInf true false 0
        = Ok (Half, Some (act 0 0 1), 3))
  /\ (forall fuel, choose (5 + fuel) depth_board = Ok (Some (act 0 0 1))).
Proof.
  split; [board_contract |].
  repeat split; intros fuel; reflexivity.
Qed.

(* ------------------------------------------------------------------ *)
(** ** Calls reachable from [choose] *)

Section Claims.

Context {State : Type} `{T3StateOps State}.

(** C9: in every call of a run of [choose] the two flags are opposite, the
    role is the one of the call's depth (max at even depths, so each level
    flips both flags), and the call does not leave through the final
    [return (0, None, node_depth)]; the run starts with [is_max] true and
    [is_min] false at depth 0. *)
Theorem role_flags_stay_opposite (fuel : nat) (state : State) :
  Forall (fun c : call State =>
            call_is_max c = negb (call_is_min c)
            /\ call_is_max c = Z.even (call_depth c)
            /\ call_branch c <> FallThrough)
         (choose_log fuel state)
  /\ (exists b rest,
        choose_log (S fuel) state
          = mkCall state NegInf PosInf true false 0 b :: rest)
  /\ fst (alphabeta_log fuel state NegInf PosInf true false 0)
       = alphabeta fuel state NegInf PosInf true false 0.
Proof.
  split; [| split].
  - exact (alphabeta_log_flags fuel state NegInf PosInf 0).
  - apply choose_log_head.
  - apply alphabeta_log_erases.
Qed.

(* ------------------------------------------------------------------ *)
(** ** Utilities, depths and actions under the contract *)

(** C7: under the contract, every call of the search returns, and the
    utility it returns is 0, 0.5 or 1. *)
Theorem utility_is_zero_half_or_one
    (state : State) (a B : score) (is_max is_min : bool) (node_depth : Z) :
  contract state ->
  exists (enough : nat) (r : triple),
    (forall fuel, (enough <= fuel)%nat ->
       alphabeta fuel state a B is_max is_min node_depth = Ok r)
    /\ (utility_of r = Zero \/ utility_of r = Half \/ utility_of r = One).
Proof.
  intros C.
  destruct (finite_game_returns state (contract_finite_game state C)) as [n R].
  destruct (R a B is_max is_min node_depth) as [r E].
  exists n, r; split; [exact E |].
  exact (alphabeta_utility n state a B is_max is_min node_depth r C (E n (le_n n))).
Qed.

(** C4, amended: under the contract and with opposite flags, the depth
    returned is the depth the call was given plus the number of plies from
    the node to a terminal state whose utility is the one returned. *)
Theorem depth_is_node_depth_plus_plies
    (state : State) (maximizing : bool) (a B : score) (node_depth : Z) :
  contract state ->
  exists (enough : nat) (r : triple) (plies : nat),
    (forall fuel, (enough <= fuel)%nat ->
       alphabeta fuel state a B maximizing (negb maximizing) node_depth = Ok r)
    /\ depth_of r = node_depth + Z.of_nat plies
    /\ reports state maximizing plies (utility_of r).
Proof.
  intros C.
  destruct (finite_game_returns state (contract_finite_game state C)) as [n R].
  destruct (R a B maximizing (negb maximizing) node_depth) as [r E].
  destruct (alphabeta_sound n state maximizing a B node_depth r C (E n (le_n n)))
    as [[_ (k & D & P)] _].
  exists n, r, k; auto.
Qed.

(** C6, amended: under the contract, [choose] returns [None] exactly on
    the terminal states, and on any other state one of its actions. *)
Theorem choose_none_iff_terminal (state : State) :
  contract state ->
  exists (enough : nat) (chosen_action : option T3Action),
    (forall fuel, (enough <= fuel)%nat -> choose fuel state = Ok chosen_action)
    /\ (chosen_action = None <-> is_win state = true \/ is_tie state = true)
    /\ (forall action, chosen_action = Some action ->
          exists child, In (action, child) (get_transitions state)).
Proof.
  intros C.
  destruct (finite_game_returns state (contract_finite_game state C)) as [n R].
  destruct (R NegInf PosInf true false 0) as [[[u o] dep] E].
  destruct (alphabeta_sound n state true NegInf PosInf 0 _ C (E n (le_n n)))
    as (_ & Open & Closed).
  unfold action_of in Open, Closed; simpl in Open, Closed.
  exists n, o; split; [| split].
  - intros fuel L; unfold choose; simpl. rewrite (E fuel L); reflexivity.
  - unfold chosen, terminal in *.
    destruct (is_tie state), (is_win state); simpl in *;
      try (split; [intros _; auto | intros _; apply Closed; reflexivity]).
    destruct (Open eq_refl) as (ac & ch & Eo & _); unfold action_of in Eo; simpl in Eo.
    split; [intros N'; congruence | intros [F | F]; discriminate F].
  - intros action Eo. unfold chosen, terminal in *.
    destruct (is_tie state), (is_win state); simpl in *;
      try (rewrite Closed in Eo by reflexivity; discriminate Eo).
    destruct (Open eq_refl) as (ac & ch & Eo' & I'); unfold action_of in Eo'; simpl in Eo'.
    exists ch. congruence.
Qed.

(** C8: on a game in which every line of play ends, the search returns,
    whatever its other arguments, and so does [choose]; the result is the
    same for every fuel bound that is large enough.  Nothing cuts the
    search short but pruning: in the run of [choose] (whose log holds the
    call [choose] makes and whose result is the one of [alphabeta]), every
    call returns, and every call on a state that is not terminal has
    searched, in that run, each child of its state, unless it ended with
    [B <= a]. *)
Theorem search_terminates (state : State) :
  finite_game state ->
  exists enough : nat,
    (forall a B is_max is_min node_depth,
       exists r, forall fuel, (enough <= fuel)%nat ->
         alphabeta fuel state a B is_max is_min node_depth = Ok r)
    /\ (exists chosen_action, forall fuel, (enough <= fuel)%nat ->
          choose fuel state = Ok chosen_action)
    /\ (forall fuel, (enough <= fuel)%nat ->
          fst (alphabeta_log fuel state NegInf PosInf true false 0)
            = alphabeta fuel state NegInf PosInf true false 0
          /\ (exists b,
                In (mkCall state NegInf PosInf true false 0 b)
                   (choose_log fuel state))
          /\ (forall c, In c (choose_log fuel state) ->
                exists r_c,
                  alphabeta fuel (call_state c) (call_a c) (call_B c)
                            (call_is_max c) (call_is_min c) (call_depth c)
                    = Ok r_c
                  /\ (is_tie (call_state c) = true
                      \/ is_win (call_state c) = true
                      \/ (forall action child,
                            In (action, child) (get_transitions (call_state c)) ->
                            exists c', In c' (choose_log fuel state)
                                       /\ call_state c' = child
                                       /\ call_depth c' = call_depth c + 1)
                      \/ window_closed (call_is_max c) (call_a c) (call_B c) r_c
                         = true))).
Proof.
  intros F. destruct (finite_game_returns state F) as [n R].
  exists n; split; [exact R |].
  destruct (R NegInf PosInf true false 0) as [[[u o] dep] E].
  split.
  { exists o; intros fuel L; unfold choose; simpl. rewrite (E fuel L); reflexivity. }
  intros fuel L.
  pose proof (alphabeta_log_erases fuel state NegInf PosInf true false 0) as Er.
  split; [exact Er | split].
  - destruct fuel as [| fuel]; [specialize (E O L); discriminate E |].
    destruct (choose_log_head fuel state) as (b & rest & Q).
    exists b; rewrite Q; left; reflexivity.
  - rewrite (E fuel L) in Er. unfold choose_log.
    destruct (alphabeta_log fuel state NegInf PosInf true false 0) as [x log] eqn:El.
    simpl in Er; subst x. simpl.
    exact (choose_run_exhaustive fuel state _ log El).
Qed.

End Claims.

(* ------------------------------------------------------------------ *)
(** ** The theorems at concrete positions *)

Lemma utility_is_zero_half_or_one_witness :
  exists (enough : nat) (r : triple),
    (forall fuel, (enough <= fuel)%nat ->
       alphabeta fuel pruning_board NegInf PosInf true false 0 = Ok r)
    /\ (utility_of r = Zero \/ utility_of r = Half \/ utility_of r = One).
Proof.
  apply (utility_is_zero_half_or_one pruning_board NegInf PosInf true false 0).
  board_contract.
Defined.

Lemma depth_is_node_depth_plus_plies_witness :
  exists (enough : nat) (r : triple) (plies : nat),
    (forall fuel, (enough <= fuel)%nat ->
       alphabeta fuel last_move_board NegInf PosInf true (negb true) 0 = Ok r)
    /\ depth_of r = 0 + Z.of_nat plies
    /\ reports last_move_board true plies (utility_of r).
Proof.
  apply (depth_is_node_depth_plus_plies last_move_board true NegInf PosInf 0).
  board_contract.
Defined.

Lemma choose_none_iff_terminal_witness :
  exists (enough : nat) (chosen_action : option T3Action),
    (forall fuel, (enough <= fuel)%nat ->
       choose fuel last_move_board = Ok chosen_action)
    /\ (chosen_action = None
        <-> is_win last_move_board = true \/ is_tie last_move_board = true)
    /\ (forall action, chosen_action = Some action ->
          exists child, In (action, child) (get_transitions last_move_board)).
Proof.
  apply (choose_none_iff_terminal last_move_board).
  board_contract.
Defined.

Lemma search_terminates_witness :
  exists enough : nat,
    (forall a B is_max is_min node_depth,
       exists r, forall fuel, (enough <= fuel)%nat ->
         alphabeta fuel pruning_board a B is_max is_min node_depth = Ok r)
    /\ (exists chosen_action, forall fuel, (enough <= fuel)%nat ->
          choose fuel pruning_board = Ok chosen_action)
    /\ (forall fuel, (enough <= fuel)%nat ->
          fst (alphabeta_log fuel pruning_board NegInf PosInf true false 0)
            = alphabeta fuel pruning_board NegInf PosInf true false 0
          /\ (exists b,
                In (mkCall pruning_board NegInf PosInf true false 0 b)
                   (choose_log fuel pruning_board))
          /\ (forall c, In c (choose_log fuel pruning_board) ->
                exists r_c,
                  alphabeta fuel (call_state c) (call_a c) (call_B c)
                            (call_is_max c) (call_is_min c) (call_depth c)
                    = Ok r_c
                  /\ (is_tie (call_state c) = true
                      \/ is_win (call_state c) = true
                      \/ (forall action child,
                            In (action, child) (get_transitions (call_state c)) ->
                            exists c', In c' (choose_log fuel pruning_board)
                                       /\ call_state c' = child
                                       /\ call_depth c' = call_depth c + 1)
                      \/ window_closed (call_is_max c) (call_a c) (call_B c) r_c
                         = true))).
Proof.
  apply (search_terminates pruning_board).
  apply contract_finite_game. board_contract.
Defined.

(** C4, as stated, fails: in the run of [choose] on [last_move_board] the
    tie state is searched at depth 1 and the depth returned for it is 1,
    while no ply at all separates that node from the terminal state whose
    utility it reports. *)
Lemma depth_counts_from_the_root :
  In (mkCall tie_board NegInf PosInf false true 1 AtTie)
     (choose_log 2 last_move_board)
  /\ alphabeta 1 tie_board NegInf PosInf false true 1 = Ok (Half, None, 1)
  /\ plies_to_terminal tie_board 0
  /\ ~ plies_to_terminal tie_board 1.
Proof.
  split; [right; left; reflexivity |].
  split; [reflexivity |].
  split; [apply plies_here; reflexivity |].
  intros P; apply tie_board_plies in P; discriminate P.
Qed.

(** C6, as stated, fails: [dead_end_board] is not terminal and has a
    transition, and [choose] returns [None] on it. *)
Lemma open_state_without_action :
  is_win dead_end_board = false
  /\ is_tie dead_end_board = false
  /\ get_transitions dead_end_board <> []
  /\ forall fuel, choose (3 + fuel) dead_end_board = Ok None.
Proof.
  repeat split; try reflexivity; discriminate.
Qed.

(* ================================================================== *)
(** * Further properties of the search *)

(* ------------------------------------------------------------------ *)
(** ** The helpers outside the tie-break *)

Lemma rank_flip (x : score) : rank (flip x) = 2 - rank x.
Proof. destruct x; reflexivity. Qed.

Lemma flip_involutive (x : score) : flip (flip x) = x.
Proof. destruct x; reflexivity. Qed.

Lemma score_ltb_flip (x y : score) : score_ltb x y = score_gtb (flip x) (flip y).
Proof.
  unfold score_ltb, score_gtb; rewrite !rank_flip.
  destruct (rank x <? rank y) eqn:L; symmetry;
    [apply Z.ltb_lt in L; apply Z.ltb_lt | apply Z.ltb_ge in L; apply Z.ltb_ge]; lia.
Qed.

Lemma score_eqb_flip (x y : score) : score_eqb x y = score_eqb (flip x) (flip y).
Proof.
  unfold score_eqb; rewrite !rank_flip.
  destruct (rank x =? rank y) eqn:L; symmetry;
    [apply Z.eqb_eq in L; apply Z.eqb_eq | apply Z.eqb_neq in L; apply Z.eqb_neq]; lia.
Qed.

Lemma score_leb_flip (x y : score) : score_leb x y = score_leb (flip y) (flip x).
Proof.
  unfold score_leb; rewrite !rank_flip.
  destruct (rank x <=? rank y) eqn:L; symmetry;
    [apply Z.leb_le in L; apply Z.leb_le | apply Z.leb_gt in L; apply Z.leb_gt]; lia.
Qed.

Lemma score_min_flip (x y : score) : flip (score_min x y) = score_max (flip x) (flip y).
Proof.
  unfold score_min, score_max. rewrite <- score_ltb_flip.
  destruct (score_ltb y x); reflexivity.
Qed.

Lemma score_max_flip (x y : score) : flip (score_max x y) = score_min (flip x) (flip y).
Proof.
  unfold score_min, score_max. rewrite (score_ltb_flip (flip y) (flip x)).
  rewrite !flip_involutive.
  destruct (score_gtb y x); reflexivity.
Qed.

(** X1: a candidate with a strictly better utility (greater for the max
    helper, smaller for the min helper) replaces the incumbent whatever the
    depths and actions are, and a candidate with a strictly worse utility
    leaves the incumbent untouched; no action is compared in either case,
    so this holds also while there is no incumbent action. *)
Theorem strictly_better_utility_decides
    (utility_score best_score : score) (action : T3Action)
    (optimal_move : option T3Action) (new_depth lowest_depth : Z) :
  (score_gtb utility_score best_score = true ->
     best_choice_max utility_score best_score action optimal_move
                     new_depth lowest_depth
       = Ok (utility_score, Some action, new_depth)
     /\ best_choice_min utility_score best_score action optimal_move
                        new_depth lowest_depth
       = Ok (best_score, optimal_move, lowest_depth))
  /\ (score_ltb utility_score best_score = true ->
        best_choice_max utility_score best_score action optimal_move
                        new_depth lowest_depth
          = Ok (best_score, optimal_move, lowest_depth)
        /\ best_choice_min utility_score best_score action optimal_move
                           new_depth lowest_depth
          = Ok (utility_score, Some action, new_depth)).
Proof.
  unfold best_choice_max, best_choice_min, score_gtb, score_ltb, score_eqb.
  split; intros G; apply Z.ltb_lt in G.
  - assert (L : (rank utility_score <? rank best_score) = false)
      by (apply Z.ltb_ge; lia).
    assert (Q : (rank utility_score =? rank best_score) = false)
      by (apply Z.eqb_neq; lia).
    apply Z.ltb_lt in G. rewrite G, L, Q. split; reflexivity.
  - assert (L : (rank best_score <? rank utility_score) = false)
      by (apply Z.ltb_ge; lia).
    assert (Q : (rank utility_score =? rank best_score) = false)
      by (apply Z.eqb_neq; lia).
    apply Z.ltb_lt in G. rewrite G, L, Q. split; reflexivity.
Qed.

Lemma strictly_better_utility_decides_witness :
  (best_choice_max One Half (act 1 1 1) None 7 3 = Ok (One, Some (act 1 1 1), 7)
   /\ best_choice_min One Half (act 1 1 1) None 7 3 = Ok (Half, None, 3))
  /\ (best_choice_max Zero Half (act 1 1 1) None 3 3 = Ok (Half, None, 3)
      /\ best_choice_min Zero Half (act 1 1 1) None 3 3
         = Ok (Zero, Some (act 1 1 1), 3)).
Proof.
  split.
  - apply (strictly_better_utility_decides One Half (act 1 1 1) None 7 3).
    reflexivity.
  - apply (strictly_better_utility_decides Zero Half (act 1 1 1) None 3 3).
    reflexivity.
Defined.

(** X2: given an incumbent action, both helpers return; the utility is the
    larger (max helper) or the smaller (min helper) of the two utilities,
    the utility and depth returned are together those of the candidate or
    together those of the incumbent, and the action is the candidate's or
    the incumbent's.  In particular the rule that takes the candidate's
    action while keeping the incumbent's depth returns a depth that is also
    the candidate's. *)
Theorem helpers_return_one_of_the_two
    (utility_score best_score : score) (action incumbent : T3Action)
    (new_depth lowest_depth : Z) :
  (exists r,
     best_choice_max utility_score best_score action (Some incumbent)
                     new_depth lowest_depth = Ok r
     /\ utility_of r = score_max best_score utility_score
     /\ ((utility_of r, depth_of r) = (utility_score, new_depth)
         \/ (utility_of r, depth_of r) = (best_score, lowest_depth))
     /\ (action_of r = Some action
         /\ (utility_of r, depth_of r) = (utility_score, new_depth)
         \/ action_of r = Some incumbent
            /\ (utility_of r, depth_of r) = (best_score, lowest_depth)))
  /\ (exists r,
        best_choice_min utility_score best_score action (Some incumbent)
                        new_depth lowest_depth = Ok r
        /\ utility_of r = score_min best_score utility_score
        /\ ((utility_of r, depth_of r) = (utility_score, new_depth)
            \/ (utility_of r, depth_of r) = (best_score, lowest_depth))
        /\ (action_of r = Some action
            /\ (utility_of r, depth_of r) = (utility_score, new_depth)
            \/ action_of r = Some incumbent
               /\ (utility_of r, depth_of r) = (best_score, lowest_depth))).
Proof.
  split.
  - pose proof (best_choice_max_spec utility_score best_score action
                  (Some incumbent) new_depth lowest_depth) as S'.
    destruct (best_choice_max utility_score best_score action (Some incumbent)
                new_depth lowest_depth) as [r | |];
      [| destruct S' as (_ & _ & N); discriminate N | destruct S'].
    exists r; split; [reflexivity |].
    unfold score_max.
    destruct S' as [[-> [G | [-> _]]] | [[-> (-> & -> & _)] | [-> G]]];
      unfold utility_of, depth_of, action_of; simpl;
      try rewrite G; try rewrite score_gtb_irrefl; auto.
  - pose proof (best_choice_min_spec utility_score best_score action
                  (Some incumbent) new_depth lowest_depth) as S'.
    destruct (best_choice_min utility_score best_score action (Some incumbent)
                new_depth lowest_depth) as [r | |];
      [| destruct S' as (_ & _ & N); discriminate N | destruct S'].
    exists r; split; [reflexivity |].
    unfold score_min.
    destruct S' as [[-> [G | [-> _]]] | [[-> (-> & -> & _)] | [-> G]]];
      unfold utility_of, depth_of, action_of; simpl;
      try rewrite G; try rewrite score_ltb_irrefl; auto.
Qed.

Lemma best_choice_min_flip (u b : score) (action : T3Action)
    (o : option T3Action) (nd ld : Z) :
  best_choice_min u b action o nd ld
  = flip_outcome (best_choice_max (flip u) (flip b) action o nd ld).
Proof.
  unfold best_choice_min, best_choice_max.
  rewrite <- score_ltb_flip, <- score_eqb_flip.
  destruct (score_ltb u b).
  { unfold flip_outcome, flip_triple, utility_of; simpl.
    rewrite flip_involutive; reflexivity. }
  destruct (score_eqb u b);
    [| unfold flip_outcome, flip_triple, utility_of; simpl;
       rewrite flip_involutive; reflexivity].
  destruct (nd <? ld).
  { unfold flip_outcome, flip_triple, utility_of; simpl.
    rewrite flip_involutive; reflexivity. }
  destruct (nd =? ld);
    [| unfold flip_outcome, flip_triple, utility_of; simpl;
       rewrite flip_involutive; reflexivity].
  destruct o as [m |]; simpl; [| reflexivity].
  destruct (action_ltb action m);
    unfold flip_outcome, flip_triple, utility_of; simpl;
    rewrite flip_involutive; reflexivity.
Qed.

(** X3: the min helper is the mirror image of the max helper: exchanging
    win and loss in both utilities and then in the result turns one into
    the other. *)
Theorem helpers_are_mirror_images
    (utility_score best_score : score) (action : T3Action)
    (optimal_move : option T3Action) (new_depth lowest_depth : Z) :
  best_choice_min utility_score best_score action optimal_move
                  new_depth lowest_depth
  = flip_outcome
      (best_choice_max (flip utility_score) (flip best_score) action
                       optimal_move new_depth lowest_depth).
Proof. apply best_choice_min_flip. Qed.

(* ------------------------------------------------------------------ *)
(** ** The min branch mirrors the max branch *)

Lemma flip_outcome_involutive (x : outcome triple) : flip_outcome (flip_outcome x) = x.
Proof.
  destruct x as [[[u o] l] | |]; simpl; try reflexivity.
  unfold flip_triple, utility_of; simpl. rewrite flip_involutive; reflexivity.
Qed.

Lemma best_choice_max_flip (u b : score) (action : T3Action)
    (o : option T3Action) (nd ld : Z) :
  best_choice_max u b action o nd ld
  = flip_outcome (best_choice_min (flip u) (flip b) action o nd ld).
Proof.
  rewrite best_choice_min_flip, !flip_involutive, flip_outcome_involutive.
  reflexivity.
Qed.

Section Mirror.

Context {State : Type} `{T3StateOps State}.

Lemma min_loop_mirror (rec : searcher) (d : Z) :
  (forall (child : State) a B d',
     rec child a B true false d'
     = flip_outcome (rec child (flip B) (flip a) false true d')) ->
  forall (moves : list (T3Action * State)) a B best o l,
    min_loop rec d moves a B best o l
    = flip_outcome (max_loop rec d moves (flip B) (flip a) (flip best) o l).
Proof.
  intros Hrec; induction moves as [| [action child] rest IH];
    intros a B best o l; simpl.
  - unfold flip_triple, utility_of; simpl. rewrite flip_involutive; reflexivity.
  - rewrite Hrec.
    destruct (rec child (flip B) (flip a) false true (d + 1)) as [[[u x] nd] | |];
      simpl; try reflexivity.
    unfold flip_triple, utility_of, action_of, depth_of; simpl.
    rewrite best_choice_min_flip, flip_involutive.
    destruct (best_choice_max u (flip best) action o nd l) as [[[b' o'] l'] | |];
      simpl; try reflexivity.
    unfold flip_triple, utility_of, action_of, depth_of; simpl.
    rewrite (score_leb_flip (score_min B (flip b')) a).
    rewrite score_min_flip, flip_involutive.
    destruct (score_leb (flip a) (score_max (flip B) b')).
    + reflexivity.
    + rewrite IH, score_min_flip, !flip_involutive. reflexivity.
Qed.

Lemma max_loop_mirror (rec : searcher) (d : Z) :
  (forall (child : State) a B d',
     rec child a B false true d'
     = flip_outcome (rec child (flip B) (flip a) true false d')) ->
  forall (moves : list (T3Action * State)) a B best o l,
    max_loop rec d moves a B best o l
    = flip_outcome (min_loop rec d moves (flip B) (flip a) (flip best) o l).
Proof.
  intros Hrec; induction moves as [| [action child] rest IH];
    intros a B best o l; simpl.
  - unfold flip_triple, utility_of; simpl. rewrite flip_involutive; reflexivity.
  - rewrite Hrec.
    destruct (rec child (flip B) (flip a) true false (d + 1)) as [[[u x] nd] | |];
      simpl; try reflexivity.
    unfold flip_triple, utility_of, action_of, depth_of; simpl.
    rewrite best_choice_max_flip, flip_involutive.
    destruct (best_choice_min u (flip best) action o nd l) as [[[b' o'] l'] | |];
      simpl; try reflexivity.
    unfold flip_triple, utility_of, action_of, depth_of; simpl.
    rewrite (score_leb_flip B (score_max a (flip b'))).
    rewrite score_max_flip, flip_involutive.
    destruct (score_leb (score_min (flip a) b') (flip B)).
    + reflexivity.
    + rewrite IH, score_max_flip, !flip_involutive. reflexivity.
Qed.

Lemma alphabeta_mirror (fuel : nat) :
  forall (s : State) (maximizing : bool) a B d,
    alphabeta fuel s a B maximizing (negb maximizing) d
    = flip_outcome (alphabeta fuel s (flip B) (flip a) (negb maximizing) maximizing d).
Proof.
  induction fuel as [| fuel IH]; intros s mx a B d; simpl; [reflexivity |].
  destruct (is_tie s); [reflexivity |].
  destruct (is_win s); [destruct mx; reflexivity |].
  destruct mx; simpl.
  - apply (max_loop_mirror (alphabeta fuel) d (fun child a' B' d' => IH child false a' B' d')).
  - apply (min_loop_mirror (alphabeta fuel) d (fun child a' B' d' => IH child true a' B' d')).
Qed.

(** X4: searching a state as a min node within the window ([a], [B]) is
    the mirror image of searching it as a max node within the mirrored
    window: the same action and depth, and the utility with win and loss
    exchanged (and the other way round). *)
Theorem min_node_mirrors_max_node (fuel : nat) (state : State)
    (maximizing : bool) (a B : score) (node_depth : Z) :
  alphabeta fuel state a B maximizing (negb maximizing) node_depth
  = flip_outcome
      (alphabeta fuel state (flip B) (flip a) (negb maximizing) maximizing
                 node_depth).
Proof. apply alphabeta_mirror. Qed.

End Mirror.

(* ------------------------------------------------------------------ *)
(** ** Errors, dead ends and depths *)

Section Edges.

Context {State : Type} `{T3StateOps State}.

(** X5: the search never raises: on no state, window, pair of flags or
    depth does it reach the comparison of an action with [None], and
    neither does [choose]. *)
Theorem search_never_compares_with_none (fuel : nat) (state : State)
    (a B : score) (is_max is_min : bool) (node_depth : Z) :
  alphabeta fuel state a B is_max is_min node_depth <> Raised
  /\ choose fuel state <> Raised.
Proof.
  split; [apply alphabeta_never_raises |].
  unfold choose; simpl.
  pose proof (alphabeta_never_raises fuel state NegInf PosInf true false 0) as N.
  destruct (alphabeta fuel state NegInf PosInf true false 0) as [[[u o] l] | |];
    simpl; [discriminate | contradiction | discriminate].
Qed.

(** X6: a state that is neither a win nor a tie and has no transition is
    given the utility the loop starts from: minus infinity as a max node,
    plus infinity as a min node, with no action and the depth of the
    call; [choose] returns [None] on it. *)
Theorem no_transition_returns_the_initial_bound (fuel : nat) (state : State)
    (a B : score) (node_depth : Z) :
  is_tie state = false ->
  is_win state = false ->
  get_transitions state = [] ->
  alphabeta (S fuel) state a B true false node_depth = Ok (NegInf, None, node_depth)
  /\ alphabeta (S fuel) state a B false true node_depth
     = Ok (PosInf, None, node_depth)
  /\ choose (S fuel) state = Ok None.
Proof.
  intros T W E. unfold choose. simpl. rewrite T, W, E. simpl.
  repeat split; reflexivity.
Qed.

Lemma max_loop_placed (rec : searcher) (d : Z) :
  depth_safe rec ->
  forall (moves : list (T3Action * State)) a B best o l r,
    placed d (best, o, l) ->
    max_loop rec d moves a B best o l = Ok r ->
    placed d r.
Proof.
  intros Hrec; induction moves as [| [action child] rest IH];
    intros a B best o l r P; simpl.
  - intros E; inversion E; subst; exact P.
  - pose proof (Hrec child a B false true (d + 1)) as Hc.
    destruct (rec child a B false true (d + 1)) as [[[u x] nd] | |];
      simpl; try discriminate.
    unfold depth_of in Hc; simpl in Hc.
    pose proof (best_choice_max_spec u best action o nd l) as Hb.
    destruct (best_choice_max u best action o nd l) as [[[b' o'] l'] | |];
      simpl; try discriminate.
    assert (P' : placed d (b', o', l')).
    { destruct Hb as [[Q _] | [[Q (_ & Q' & _)] | [Q _]]]; inversion Q; subst.
      - exact Hc.
      - exact Hc.
      - exact P. }
    destruct (score_leb B (score_max a b')).
    + intros E; inversion E; subst; exact P'.
    + apply IH; exact P'.
Qed.

Lemma min_loop_placed (rec : searcher) (d : Z) :
  depth_safe rec ->
  forall (moves : list (T3Action * State)) a B best o l r,
    placed d (best, o, l) ->
    min_loop rec d moves a B best o l = Ok r ->
    placed d r.
Proof.
  intros Hrec; induction moves as [| [action child] rest IH];
    intros a B best o l r P; simpl.
  - intros E; inversion E; subst; exact P.
  - pose proof (Hrec child a B true false (d + 1)) as Hc.
    destruct (rec child a B true false (d + 1)) as [[[u x] nd] | |];
      simpl; try discriminate.
    unfold depth_of in Hc; simpl in Hc.
    pose proof (best_choice_min_spec u best action o nd l) as Hb.
    destruct (best_choice_min u best action o nd l) as [[[b' o'] l'] | |];
      simpl; try discriminate.
    assert (P' : placed d (b', o', l')).
    { destruct Hb as [[Q _] | [[Q (_ & Q' & _)] | [Q _]]]; inversion Q; subst.
      - exact Hc.
      - exact Hc.
      - exact P. }
    destruct (score_leb (score_min B b') a).
    + intros E; inversion E; subst; exact P'.
    + apply IH; exact P'.
Qed.

Lemma alphabeta_placed (fuel : nat) (s : State) a B is_max is_min d r :
  alphabeta fuel s a B is_max is_min d = Ok r -> placed d r.
Proof.
  destruct fuel as [| fuel]; simpl; [discriminate |].
  destruct (is_tie s); [intros E; inversion E; reflexivity |].
  destruct (is_win s).
  { destruct (negb is_max && is_min); intros E; inversion E; reflexivity. }
  destruct (is_max && negb is_min).
  { apply (max_loop_placed _ d (alphabeta_depth_safe fuel)); reflexivity. }
  destruct (is_min && negb is_max).
  { apply (min_loop_placed _ d (alphabeta_depth_safe fuel)); reflexivity. }
  intros E; inversion E; reflexivity.
Qed.

(** X7: on a finite game every call returns, and the depth it returns is
    the depth it was given when it returns no action, and at least one
    more when it returns an action. *)
Theorem depth_tells_whether_an_action_was_taken
    (state : State) (a B : score) (is_max is_min : bool) (node_depth : Z) :
  finite_game state ->
  exists (enough : nat) (r : triple),
    (forall fuel, (enough <= fuel)%nat ->
       alphabeta fuel state a B is_max is_min node_depth = Ok r)
    /\ (action_of r = None -> depth_of r = node_depth)
    /\ (forall action, action_of r = Some action -> node_depth + 1 <= depth_of r).
Proof.
  intros F. destruct (finite_game_returns state F) as [n R].
  destruct (R a B is_max is_min node_depth) as [r E].
  exists n, r; split; [exact E |].
  pose proof (alphabeta_placed n state a B is_max is_min node_depth r (E n (le_n n))) as P.
  unfold placed in P.
  destruct (action_of r) as [m |]; split; intros; try discriminate; auto.
Qed.

End Edges.

Lemma no_transition_returns_the_initial_bound_witness :
  alphabeta 1 stuck_board Zero One true false 4 = Ok (NegInf, None, 4)
  /\ alphabeta 1 stuck_board Zero One false true 4 = Ok (PosInf, None, 4)
  /\ choose 1 stuck_board = Ok None.
Proof.
  exact (no_transition_returns_the_initial_bound
           0 stuck_board Zero One 4 eq_refl eq_refl eq_refl).
Defined.

Lemma depth_tells_whether_an_action_was_taken_witness :
  exists (enough : nat) (r : triple),
    (forall fuel, (enough <= fuel)%nat ->
       alphabeta fuel dead_end_board NegInf PosInf true false 0 = Ok r)
    /\ (action_of r = None -> depth_of r = 0)
    /\ (forall action, action_of r = Some action -> 0 + 1 <= depth_of r).
Proof.
  apply (depth_tells_whether_an_action_was_taken
           dead_end_board NegInf PosInf true false 0).
  apply finite_inner; [reflexivity |].
  simpl; intros action child [E | []]; inversion E; subst; clear E.
  apply finite_inner; [reflexivity |].
  simpl; intros action' child' [E | []]; inversion E; subst; clear E.
  apply finite_inner; [reflexivity |].
  simpl; intros ? ? [].
Defined.

(* ------------------------------------------------------------------ *)
(** ** Where the calls of a run are made *)

Section Runs.

Context {State : Type} `{T3StateOps State}.

Lemma below_lift (s : State) (d : Z) (action : T3Action) (child : State)
    (c : call State) :
  terminal s = false ->
  In (action, child) (get_transitions s) ->
  below child (d + 1) c ->
  below s d c.
Proof.
  intros T I' (n & D & P). exists (S n); split; [lia |].
  exact (descends_step s action child n _ T I' P).
Qed.

Lemma max_loop_log_below (lrec : logged_searcher) (s : State) (d : Z) :
  terminal s = false ->
  (forall (child : State) a B,
     Forall (below child (d + 1)) (snd (lrec child a B false true (d + 1)))) ->
  forall (moves : list (T3Action * State)) a B best o l,
    incl moves (get_transitions s) ->
    Forall (below s d) (snd (max_loop_log lrec d moves a B best o l)).
Proof.
  intros T Hrec; induction moves as [| [action child] rest IH];
    intros a B best o l Hin; simpl; [constructor |].
  assert (Hc : Forall (below s d) (snd (lrec child a B false true (d + 1)))).
  { eapply Forall_impl; [| apply Hrec].
    intros c; apply (below_lift s d action child c T (Hin _ (or_introl eq_refl))). }
  destruct (lrec child a B false true (d + 1)) as [[[[u x] nd] | |] seen];
    simpl in *; try exact Hc.
  destruct (best_choice_max u best action o nd l) as [[[b' o'] l'] | |];
    simpl; try exact Hc.
  destruct (score_leb B (score_max a b')); [exact Hc |].
  specialize (IH (score_max a b') B b' o' l' (fun y Hy => Hin y (or_intror Hy))).
  destruct (max_loop_log lrec d rest (score_max a b') B b' o' l') as [r' later];
    simpl in *.
  apply Forall_app; split; assumption.
Qed.

Lemma min_loop_log_below (lrec : logged_searcher) (s : State) (d : Z) :
  terminal s = false ->
  (forall (child : State) a B,
     Forall (below child (d + 1)) (snd (lrec child a B true false (d + 1)))) ->
  forall (moves : list (T3Action * State)) a B best o l,
    incl moves (get_transitions s) ->
    Forall (below s d) (snd (min_loop_log lrec d moves a B best o l)).
Proof.
  intros T Hrec; induction moves as [| [action child] rest IH];
    intros a B best o l Hin; simpl; [constructor |].
  assert (Hc : Forall (below s d) (snd (lrec child a B true false (d + 1)))).
  { eapply Forall_impl; [| apply Hrec].
    intros c; apply (below_lift s d action child c T (Hin _ (or_introl eq_refl))). }
  destruct (lrec child a B true false (d + 1)) as [[[[u x] nd] | |] seen];
    simpl in *; try exact Hc.
  destruct (best_choice_min u best action o nd l) as [[[b' o'] l'] | |];
    simpl; try exact Hc.
  destruct (score_leb (score_min B b') a); [exact Hc |].
  specialize (IH a (score_min B b') b' o' l' (fun y Hy => Hin y (or_intror Hy))).
  destruct (min_loop_log lrec d rest a (score_min B b') b' o' l') as [r' later];
    simpl in *.
  apply Forall_app; split; assumption.
Qed.

Lemma alphabeta_log_below (fuel : nat) :
  forall (s : State) a B is_max is_min d,
    Forall (below s d) (snd (alphabeta_log fuel s a B is_max is_min d)).
Proof.
  induction fuel as [| fuel IH]; intros s a B is_max is_min d; simpl; [constructor |].
  assert (W : forall b, below s d (mkCall s a B is_max is_min d b)).
  { intros b; exists O; split; [simpl; lia | apply descends_here]. }
  destruct (is_tie s) eqn:Tie; [repeat constructor; apply W |].
  destruct (is_win s) eqn:Win.
  { destruct (negb is_max && is_min); repeat constructor; apply W. }
  assert (T : terminal s = false) by (unfold terminal; rewrite Tie, Win; reflexivity).
  destruct (is_max && negb is_min).
  { pose proof (max_loop_log_below (alphabeta_log fuel) s d T
                  (fun child a' B' => IH child a' B' false true (d + 1))
                  (get_transitions s) a B NegInf None d (incl_refl _)) as L.
    destruct (max_loop_log (alphabeta_log fuel) d (get_transitions s) a B NegInf None d);
      simpl in *.
    constructor; [apply W | exact L]. }
  destruct (is_min && negb is_max).
  { pose proof (min_loop_log_below (alphabeta_log fuel) s d T
                  (fun child a' B' => IH child a' B' true false (d + 1))
                  (get_transitions s) a B PosInf None d (incl_refl _)) as L.
    destruct (min_loop_log (alphabeta_log fuel) d (get_transitions s) a B PosInf None d);
      simpl in *.
    constructor; [apply W | exact L]. }
  repeat constructor; apply W.
Qed.

(** X8: every call of a search is made on a state reached from the
    searched state by transitions out of states that are not terminal, and
    its depth is the depth of the first call plus the number of those
    transitions: nothing is searched below a win or a tie. *)
Theorem calls_follow_transitions (fuel : nat) (state : State)
    (a B : score) (is_max is_min : bool) (node_depth : Z) :
  Forall (fun c : call State =>
            exists plies : nat,
              call_depth c = node_depth + Z.of_nat plies
              /\ descends state plies (call_state c))
         (snd (alphabeta_log fuel state a B is_max is_min node_depth)).
Proof. apply alphabeta_log_below. Qed.

Lemma score_ltb_lt (x y : score) : score_ltb x y = true <-> rank x < rank y.
Proof. apply Z.ltb_lt. Qed.

Lemma window_inside_wider (a B a' B' : score) (c : call State) :
  rank a <= rank a' ->
  rank B' <= rank B ->
  window_inside a' B' c ->
  window_inside a B c.
Proof.
  intros La LB (W1 & W2 & W3). unfold window_inside.
  apply score_leb_le in W1, W3. rewrite !score_leb_le. repeat split; try lia.
  exact W2.
Qed.

Lemma max_loop_log_window (lrec : logged_searcher) (d : Z) (a0 B : score) :
  (forall (child : State) a' B' d',
     rank a' < rank B' ->
     Forall (window_inside a' B') (snd (lrec child a' B' false true d'))) ->
  forall (moves : list (T3Action * State)) a best o l,
    rank a0 <= rank a ->
    rank a < rank B ->
    Forall (window_inside a0 B) (snd (max_loop_log lrec d moves a B best o l)).
Proof.
  intros Hrec; induction moves as [| [action child] rest IH];
    intros a best o l La Lb; simpl; [constructor |].
  assert (Hc : Forall (window_inside a0 B) (snd (lrec child a B false true (d + 1)))).
  { eapply Forall_impl; [| apply (Hrec child a B (d + 1) Lb)].
    intros c; apply window_inside_wider; lia. }
  destruct (lrec child a B false true (d + 1)) as [[[[u x] nd] | |] seen];
    simpl in *; try exact Hc.
  destruct (best_choice_max u best action o nd l) as [[[b' o'] l'] | |];
    simpl; try exact Hc.
  destruct (score_leb B (score_max a b')) eqn:Cut; [exact Hc |].
  apply score_leb_gt in Cut.
  assert (La' : rank a0 <= rank (score_max a b')) by (rewrite rank_score_max; lia).
  specialize (IH (score_max a b') b' o' l' La' Cut).
  destruct (max_loop_log lrec d rest (score_max a b') B b' o' l') as [r' later];
    simpl in *.
  apply Forall_app; split; assumption.
Qed.

Lemma min_loop_log_window (lrec : logged_searcher) (d : Z) (a B0 : score) :
  (forall (child : State) a' B' d',
     rank a' < rank B' ->
     Forall (window_inside a' B') (snd (lrec child a' B' true false d'))) ->
  forall (moves : list (T3Action * State)) B best o l,
    rank B <= rank B0 ->
    rank a < rank B ->
    Forall (window_inside a B0) (snd (min_loop_log lrec d moves a B best o l)).
Proof.
  intros Hrec; induction moves as [| [action child] rest IH];
    intros B best o l La Lb; simpl; [constructor |].
  assert (Hc : Forall (window_inside a B0) (snd (lrec child a B true false (d + 1)))).
  { eapply Forall_impl; [| apply (Hrec child a B (d + 1) Lb)].
    intros c; apply window_inside_wider; lia. }
  destruct (lrec child a B true false (d + 1)) as [[[[u x] nd] | |] seen];
    simpl in *; try exact Hc.
  destruct (best_choice_min u best action o nd l) as [[[b' o'] l'] | |];
    simpl; try exact Hc.
  destruct (score_leb (score_min B b') a) eqn:Cut; [exact Hc |].
  apply score_leb_gt in Cut.
  assert (La' : rank (score_min B b') <= rank B0) by (rewrite rank_score_min; lia).
  specialize (IH (score_min B b') b' o' l' La' Cut).
  destruct (min_loop_log lrec d rest a (score_min B b') b' o' l') as [r' later];
    simpl in *.
  apply Forall_app; split; assumption.
Qed.

Lemma alphabeta_log_window (fuel : nat) :
  forall (s : State) a B is_max is_min d,
    rank a < rank B ->
    Forall (window_inside a B) (snd (alphabeta_log fuel s a B is_max is_min d)).
Proof.
  induction fuel as [| fuel IH]; intros s a B is_max is_min d L; simpl;
    [constructor |].
  assert (W : forall b, window_inside a B (mkCall s a B is_max is_min d b)).
  { intros b; unfold window_inside; simpl.
    rewrite !score_leb_le, score_ltb_lt. lia. }
  destruct (is_tie s); [repeat constructor; apply W |].
  destruct (is_win s).
  { destruct (negb is_max && is_min); repeat constructor; apply W. }
  destruct (is_max && negb is_min).
  { pose proof (max_loop_log_window (alphabeta_log fuel) d a B
                  (fun child a' B' d' => IH child a' B' false true d')
                  (get_transitions s) a NegInf None d (Z.le_refl _) L) as Lw.
    destruct (max_loop_log (alphabeta_log fuel) d (get_transitions s) a B NegInf None d);
      simpl in *.
    constructor; [apply W | exact Lw]. }
  destruct (is_min && negb is_max).
  { pose proof (min_loop_log_window (alphabeta_log fuel) d a B
                  (fun child a' B' d' => IH child a' B' true false d')
                  (get_transitions s) B PosInf None d (Z.le_refl _) L) as Lw.
    destruct (min_loop_log (alphabeta_log fuel) d (get_transitions s) a B PosInf None d);
      simpl in *.
    constructor; [apply W | exact Lw]. }
  repeat constructor; apply W.
Qed.

(** X9: a search started with [a < B] only ever calls itself with
    [a < B]: the window of every call is open, and it lies inside the
    window of the first call (alpha never falls, beta never rises). *)
Theorem windows_stay_open_and_only_narrow (fuel : nat) (state : State)
    (a B : score) (is_max is_min : bool) (node_depth : Z) :
  score_ltb a B = true ->
  Forall (fun c : call State =>
            score_leb a (call_a c) = true
            /\ score_ltb (call_a c) (call_B c) = true
            /\ score_leb (call_B c) B = true)
         (snd (alphabeta_log fuel state a B is_max is_min node_depth)).
Proof.
  intros L. apply alphabeta_log_window. apply score_ltb_lt; exact L.
Qed.

End Runs.

Lemma windows_stay_open_and_only_narrow_witness :
  Forall (fun c : call Board =>
            score_leb NegInf (call_a c) = true
            /\ score_ltb (call_a c) (call_B c) = true
            /\ score_leb (call_B c) PosInf = true)
         (snd (alphabeta_log 4 pruning_board NegInf PosInf true false 0)).
Proof.
  apply (windows_stay_open_and_only_narrow 4 pruning_board NegInf PosInf true false 0).
  reflexivity.
Defined.

(* ------------------------------------------------------------------ *)
(** ** What the root looks at and what it returns *)

Section Root.

Context {State : Type} `{T3StateOps State}.

(** X10: under the contract, the run of [choose] on a state that is not
    terminal searches every transition of the state: at the root no move
    is pruned. *)
Theorem choose_searches_every_root_move (state : State) :
  contract state ->
  is_tie state = false ->
  is_win state = false ->
  exists enough : nat,
    forall fuel, (enough <= fuel)%nat ->
      forall action child,
        In (action, child) (get_transitions state) ->
        exists c, In c (choose_log fuel state)
                  /\ call_state c = child /\ call_depth c = 1.
Proof.
  intros C T W.
  destruct (finite_game_returns state (contract_finite_game state C)) as [n R].
  destruct (R NegInf PosInf true false 0) as [r E].
  exists n; intros fuel L.
  pose proof (alphabeta_log_erases fuel state NegInf PosInf true false 0) as Er.
  rewrite (E fuel L) in Er.
  unfold choose_log.
  destruct (alphabeta_log fuel state NegInf PosInf true false 0) as [x log] eqn:El.
  simpl in Er; subst x.
  destruct (alphabeta_log_covers fuel state true NegInf PosInf 0 r log El T W)
    as [All | Closed]; [exact All |].
  exfalso.
  pose proof (alphabeta_utility fuel state _ _ _ _ _ r C (E fuel L)) as U.
  destruct U as [U | [U | U]]; rewrite U in Closed; discriminate Closed.
Qed.

Lemma max_loop_picks (rec : searcher) (d : Z) :
  forall (moves : list (T3Action * State)) a B best o l r,
    max_loop rec d moves a B best o l = Ok r ->
    r = (best, o, l)
    \/ exists action child a' x,
         In (action, child) moves
         /\ action_of r = Some action
         /\ rec child a' B false true (d + 1) = Ok (utility_of r, x, depth_of r).
Proof.
  induction moves as [| [action child] rest IH]; intros a B best o l r; simpl.
  - intros E; inversion E; left; reflexivity.
  - destruct (rec child a B false true (d + 1)) as [[[u x] nd] | |] eqn:Ec;
      simpl; try discriminate.
    pose proof (best_choice_max_spec u best action o nd l) as Hb.
    destruct (best_choice_max u best action o nd l) as [[[b' o'] l'] | |];
      simpl; try discriminate.
    assert (Here : (b', o', l') = (best, o, l)
                   \/ exists action0 child0 a' x0,
                        In (action0, child0) ((action, child) :: rest)
                        /\ action_of (b', o', l') = Some action0
                        /\ rec child0 a' B false true (d + 1)
                           = Ok (utility_of (b', o', l'), x0, depth_of (b', o', l'))).
    { destruct Hb as [[Q _] | [[Q (Qu & Qd & _)] | [Q _]]].
      - right; exists action, child, a, x; inversion Q; subst.
        split; [left; reflexivity | split; [reflexivity | exact Ec]].
      - right; exists action, child, a, x; inversion Q; subst.
        split; [left; reflexivity | split; [reflexivity | exact Ec]].
      - left; exact Q. }
    destruct (score_leb B (score_max a b')).
    + intros E; inversion E; subst; exact Here.
    + intros E. destruct (IH _ _ _ _ _ _ E) as [-> | (ac & ch & a' & x' & I' & P)].
      * exact Here.
      * right; exists ac, ch, a', x'; split; [right; exact I' | exact P].
Qed.

Lemma min_loop_picks (rec : searcher) (d : Z) :
  forall (moves : list (T3Action * State)) a B best o l r,
    min_loop rec d moves a B best o l = Ok r ->
    r = (best, o, l)
    \/ exists action child B' x,
         In (action, child) moves
         /\ action_of r = Some action
         /\ rec child a B' true false (d + 1) = Ok (utility_of r, x, depth_of r).
Proof.
  induction moves as [| [action child] rest IH]; intros a B best o l r; simpl.
  - intros E; inversion E; left; reflexivity.
  - destruct (rec child a B true false (d + 1)) as [[[u x] nd] | |] eqn:Ec;
      simpl; try discriminate.
    pose proof (best_choice_min_spec u best action o nd l) as Hb.
    destruct (best_choice_min u best action o nd l) as [[[b' o'] l'] | |];
      simpl; try discriminate.
    assert (Here : (b', o', l') = (best, o, l)
                   \/ exists action0 child0 B' x0,
                        In (action0, child0) ((action, child) :: rest)
                        /\ action_of (b', o', l') = Some action0
                        /\ rec child0 a B' true false (d + 1)
                           = Ok (utility_of (b', o', l'), x0, depth_of (b', o', l'))).
    { destruct Hb as [[Q _] | [[Q (Qu & Qd & _)] | [Q _]]].
      - right; exists action, child, B, x; inversion Q; subst.
        split; [left; reflexivity | split; [reflexivity | exact Ec]].
      - right; exists action, child, B, x; inversion Q; subst.
        split; [left; reflexivity | split; [reflexivity | exact Ec]].
      - left; exact Q. }
    destruct (score_leb (score_min B b') a).
    + intros E; inversion E; subst; exact Here.
    + intros E. destruct (IH _ _ _ _ _ _ E) as [-> | (ac & ch & B' & x' & I' & P)].
      * exact Here.
      * right; exists ac, ch, B', x'; split; [right; exact I' | exact P].
Qed.

(** X11: on a finite game, a call on a state that is not terminal returns
    either the untouched start of its loop (no action, the depth of the
    call, minus or plus infinity) or an action of one of the state's
    transitions together with exactly the utility and the depth that the
    search of that transition's child returned: the depth returned always
    belongs to the action returned. *)
Theorem result_belongs_to_the_returned_action
    (state : State) (maximizing : bool) (a B : score) (node_depth : Z) :
  finite_game state ->
  is_tie state = false ->
  is_win state = false ->
  exists (enough : nat) (r : triple),
    (forall fuel, (enough <= fuel)%nat ->
       alphabeta fuel state a B maximizing (negb maximizing) node_depth = Ok r)
    /\ (r = ((if maximizing then NegInf else PosInf), None, node_depth)
        \/ exists action child a' B' x,
             action_of r = Some action
             /\ In (action, child) (get_transitions state)
             /\ forall fuel, (enough <= fuel)%nat ->
                  alphabeta fuel child a' B' (negb maximizing) maximizing
                            (node_depth + 1)
                  = Ok (utility_of r, x, depth_of r)).
Proof.
  intros F T W. destruct (finite_game_returns state F) as [n R].
  destruct (R a B maximizing (negb maximizing) node_depth) as [r E].
  exists (S n), r; split; [intros fuel L; apply E; lia |].
  pose proof (E (S n) (Nat.le_succ_diag_r n)) as E1.
  simpl in E1; rewrite T, W in E1.
  destruct maximizing; simpl in E1.
  - destruct (max_loop_picks _ _ _ _ _ _ _ _ _ E1)
      as [-> | (ac & ch & a' & x & I' & Pa & Pc)]; [left; reflexivity |].
    right; exists ac, ch, a', B, x; split; [exact Pa | split; [exact I' |]].
    intros fuel L.
    apply (alphabeta_fuel_le n fuel); [lia | exact Pc].
  - destruct (min_loop_picks _ _ _ _ _ _ _ _ _ E1)
      as [-> | (ac & ch & B' & x & I' & Pa & Pc)]; [left; reflexivity |].
    right; exists ac, ch, a, B', x; split; [exact Pa | split; [exact I' |]].
    intros fuel L.
    apply (alphabeta_fuel_le n fuel); [lia | exact Pc].
Qed.

End Root.

Lemma choose_searches_every_root_move_witness :
  exists enough : nat,
    forall fuel, (enough <= fuel)%nat ->
      forall action child,
        In (action, child) (get_transitions pruning_board) ->
        exists c, In c (choose_log fuel pruning_board)
                  /\ call_state c = child /\ call_depth c = 1.
Proof.
  apply (choose_searches_every_root_move pruning_board);
    [board_contract | reflexivity | reflexivity].
Defined.

Lemma result_belongs_to_the_returned_action_witness :
  exists (enough : nat) (r : triple),
    (forall fuel, (enough <= fuel)%nat ->
       alphabeta fuel pruning_board NegInf PosInf true (negb true) 0 = Ok r)
    /\ (r = (NegInf, None, 0)
        \/ exists action child a' B' x,
             action_of r = Some action
             /\ In (action, child) (get_transitions pruning_board)
             /\ forall fuel, (enough <= fuel)%nat ->
                  alphabeta fuel child a' B' (negb true) true (0 + 1)
                  = Ok (utility_of r, x, depth_of r)).
Proof.
  apply (result_belongs_to_the_returned_action pruning_board true NegInf PosInf 0);
    [apply contract_finite_game; board_contract | reflexivity | reflexivity].
Defined.

(* ------------------------------------------------------------------ *)
(** ** The exhaustive search returns on finite games *)

Section MinimaxFacts.

Context {State : Type} `{T3StateOps State}.

Lemma minimax_max_loop_depth_safe (rec : plain_searcher) (d : Z) :
  plain_depth_safe rec ->
  forall (moves : list (T3Action * State)) best o l,
    incumbent_ok d (best, o, l) ->
    match minimax_max_loop rec d moves best o l with
    | Ok r => incumbent_ok d r
    | Raised => False
    | NoFuel => True
    end.
Proof.
  intros Hrec; induction moves as [| [action child] rest IH];
    intros best o l [Hl Ho]; simpl in Hl, Ho.
  - simpl; split; assumption.
  - simpl.
    pose proof (Hrec child false true (d + 1)) as Hc.
    destruct (rec child false true (d + 1)) as [[[u x] nd] | |];
      simpl; try exact Hc; try exact I.
    unfold depth_of in Hc; simpl in Hc.
    pose proof (best_choice_max_spec u best action o nd l) as Hb.
    destruct (best_choice_max u best action o nd l) as [[[b' o'] l'] | |]; simpl.
    + apply IH.
      destruct Hb as [[E _] | [[E (_ & _ & No)] | [E _]]];
        inversion E; subst; split; simpl; try discriminate; try lia; auto.
    + destruct Hb as (_ & -> & ->). specialize (Ho eq_refl). lia.
    + destruct Hb.
Qed.

Lemma minimax_min_loop_depth_safe (rec : plain_searcher) (d : Z) :
  plain_depth_safe rec ->
  forall (moves : list (T3Action * State)) best o l,
    incumbent_ok d (best, o, l) ->
    match minimax_min_loop rec d moves best o l with
    | Ok r => incumbent_ok d r
    | Raised => False
    | NoFuel => True
    end.
Proof.
  intros Hrec; induction moves as [| [action child] rest IH];
    intros best o l [Hl Ho]; simpl in Hl, Ho.
  - simpl; split; assumption.
  - simpl.
    pose proof (Hrec child true false (d + 1)) as Hc.
    destruct (rec child true false (d + 1)) as [[[u x] nd] | |];
      simpl; try exact Hc; try exact I.
    unfold depth_of in Hc; simpl in Hc.
    pose proof (best_choice_min_spec u best action o nd l) as Hb.
    destruct (best_choice_min u best action o nd l) as [[[b' o'] l'] | |]; simpl.
    + apply IH.
      destruct Hb as [[E _] | [[E (_ & _ & No)] | [E _]]];
        inversion E; subst; split; simpl; try discriminate; try lia; auto.
    + destruct Hb as (_ & -> & ->). specialize (Ho eq_refl). lia.
    + destruct Hb.
Qed.

Lemma minimax_depth_safe (fuel : nat) : plain_depth_safe (minimax fuel).
Proof.
  induction fuel as [| fuel IH]; intros s is_max is_min d; simpl; [exact I |].
  destruct (is_tie s); [simpl; lia |].
  destruct (is_win s).
  { destruct (negb is_max && is_min); simpl; lia. }
  destruct (is_max && negb is_min).
  { pose proof (minimax_max_loop_depth_safe (minimax fuel) d IH (get_transitions s)
                  NegInf None d (incumbent_ok_start d NegInf)) as L.
    destruct (minimax_max_loop (minimax fuel) d (get_transitions s) NegInf None d);
      [apply L | exact L | exact I]. }
  destruct (is_min && negb is_max).
  { pose proof (minimax_min_loop_depth_safe (minimax fuel) d IH (get_transitions s)
                  PosInf None d (incumbent_ok_start d PosInf)) as L.
    destruct (minimax_min_loop (minimax fuel) d (get_transitions s) PosInf None d);
      [apply L | exact L | exact I]. }
  simpl; lia.
Qed.

Lemma minimax_max_loop_extends (rec rec' : plain_searcher) (d : Z) :
  plain_extends rec rec' ->
  forall (moves : list (T3Action * State)) best o l r,
    minimax_max_loop rec d moves best o l = Ok r ->
    minimax_max_loop rec' d moves best o l = Ok r.
Proof.
  intros Hx; induction moves as [| [action child] rest IH];
    intros best o l r; simpl; [auto |].
  destruct (rec child false true (d + 1)) as [[[u x] nd] | |] eqn:E;
    simpl; try discriminate.
  rewrite (Hx _ _ _ _ _ E); simpl.
  destruct (best_choice_max u best action o nd l) as [[[b' o'] l'] | |];
    simpl; try discriminate.
  apply IH.
Qed.

Lemma minimax_min_loop_extends (rec rec' : plain_searcher) (d : Z) :
  plain_extends rec rec' ->
  forall (moves : list (T3Action * State)) best o l r,
    minimax_min_loop rec d moves best o l = Ok r ->
    minimax_min_loop rec' d moves best o l = Ok r.
Proof.
  intros Hx; induction moves as [| [action child] rest IH];
    intros best o l r; simpl; [auto |].
  destruct (rec child true false (d + 1)) as [[[u x] nd] | |] eqn:E;
    simpl; try discriminate.
  rewrite (Hx _ _ _ _ _ E); simpl.
  destruct (best_choice_min u best action o nd l) as [[[b' o'] l'] | |];
    simpl; try discriminate.
  apply IH.
Qed.

Lemma minimax_fuel_succ (fuel : nat) : plain_extends (minimax fuel) (minimax (S fuel)).
Proof.
  induction fuel as [| fuel IH]; intros s is_max is_min d r; [discriminate |].
  intros E.
  change (minimax (S fuel) s is_max is_min d) with
    (if is_tie s then Ok (Half, None, d)
     else if is_win s then
       if negb is_max && is_min then Ok (One, None, d) else Ok (Zero, None, d)
     else if is_max && negb is_min then
       minimax_max_loop (minimax fuel) d (get_transitions s) NegInf None d
     else if is_min && negb is_max then
       minimax_min_loop (minimax fuel) d (get_transitions s) PosInf None d
     else Ok (Zero, None, d)) in E.
  change (minimax (S (S fuel)) s is_max is_min d) with
    (if is_tie s then Ok (Half, None, d)
     else if is_win s then
       if negb is_max && is_min then Ok (One, None, d) else Ok (Zero, None, d)
     else if is_max && negb is_min then
       minimax_max_loop (minimax (S fuel)) d (get_transitions s) NegInf None d
     else if is_min && negb is_max then
       minimax_min_loop (minimax (S fuel)) d (get_transitions s) PosInf None d
     else Ok (Zero, None, d)).
  destruct (is_tie s); [exact E |].
  destruct (is_win s); [exact E |].
  destruct (is_max && negb is_min);
    [exact (minimax_max_loop_extends _ _ d IH _ _ _ _ _ E) |].
  destruct (is_min && negb is_max);
    [exact (minimax_min_loop_extends _ _ d IH _ _ _ _ _ E) |].
  exact E.
Qed.

Lemma minimax_fuel_le (fuel fuel' : nat) :
  (fuel <= fuel')%nat -> plain_extends (minimax fuel) (minimax fuel').
Proof.
  induction 1 as [| fuel' _ IH]; intros s is_max is_min d r E; [exact E |].
  apply minimax_fuel_succ, IH, E.
Qed.

Lemma minimax_max_loop_no_fuel (rec : plain_searcher) (d : Z) :
  forall (moves : list (T3Action * State)) best o l,
    minimax_max_loop rec d moves best o l = NoFuel ->
    exists action child,
      In (action, child) moves /\ rec child false true (d + 1) = NoFuel.
Proof.
  induction moves as [| [action child] rest IH]; intros best o l; simpl;
    [discriminate |].
  destruct (rec child false true (d + 1)) as [[[u x] nd] | |] eqn:E;
    simpl; try discriminate.
  - pose proof (best_choice_max_spec u best action o nd l) as Hb.
    destruct (best_choice_max u best action o nd l) as [[[b' o'] l'] | |];
      simpl; try discriminate; [| destruct Hb].
    intros E'. destruct (IH _ _ _ E') as (ac & ch & I' & N').
    exists ac, ch; split; [right; exact I' | exact N'].
  - intros _. exists action, child; split; [left; reflexivity | exact E].
Qed.

Lemma minimax_min_loop_no_fuel (rec : plain_searcher) (d : Z) :
  forall (moves : list (T3Action * State)) best o l,
    minimax_min_loop rec d moves best o l = NoFuel ->
    exists action child,
      In (action, child) moves /\ rec child true false (d + 1) = NoFuel.
Proof.
  induction moves as [| [action child] rest IH]; intros best o l; simpl;
    [discriminate |].
  destruct (rec child true false (d + 1)) as [[[u x] nd] | |] eqn:E;
    simpl; try discriminate.
  - pose proof (best_choice_min_spec u best action o nd l) as Hb.
    destruct (best_choice_min u best action o nd l) as [[[b' o'] l'] | |];
      simpl; try discriminate; [| destruct Hb].
    intros E'. destruct (IH _ _ _ E') as (ac & ch & I' & N').
    exists ac, ch; split; [right; exact I' | exact N'].
  - intros _. exists action, child; split; [left; reflexivity | exact E].
Qed.

Lemma plain_runs_returns (fuel : nat) (s : State) :
  plain_runs fuel s ->
  forall is_max is_min d, exists r, minimax fuel s is_max is_min d = Ok r.
Proof.
  intros R is_max is_min d.
  pose proof (minimax_depth_safe fuel s is_max is_min d) as D.
  destruct (minimax fuel s is_max is_min d) as [r | |] eqn:E.
  - exists r; reflexivity.
  - destruct D.
  - exfalso; exact (R _ _ _ E).
Qed.

Lemma plain_runs_le (fuel fuel' : nat) (s : State) :
  (fuel <= fuel')%nat -> plain_runs fuel s -> plain_runs fuel' s.
Proof.
  intros L R is_max is_min d.
  destruct (plain_runs_returns fuel s R is_max is_min d) as [r E].
  rewrite (minimax_fuel_le fuel fuel' L _ _ _ _ _ E); discriminate.
Qed.

Lemma plain_runs_all (moves : list (T3Action * State)) :
  (forall action child, In (action, child) moves -> exists n, plain_runs n child) ->
  exists n, forall action child, In (action, child) moves -> plain_runs n child.
Proof.
  induction moves as [| [action child] rest IH]; intros Hall.
  - exists O; intros ? ? [].
  - destruct IH as [n Hn].
    { intros ac ch I'; apply (Hall ac ch); right; exact I'. }
    destruct (Hall action child (or_introl eq_refl)) as [m Hm].
    exists (Nat.max n m); intros ac ch [E | I'].
    + inversion E; subst; apply (plain_runs_le m); [apply Nat.le_max_r | exact Hm].
    + apply (plain_runs_le n); [apply Nat.le_max_l | exact (Hn ac ch I')].
Qed.

Lemma finite_game_plain_runs (s : State) : finite_game s -> exists n, plain_runs n s.
Proof.
  induction 1 as [s T | s T _ IH].
  - exists 1%nat; intros is_max is_min d; simpl.
    unfold terminal in T.
    destruct (is_tie s); [discriminate |].
    simpl in T; rewrite T.
    destruct (negb is_max && is_min); discriminate.
  - destruct (plain_runs_all (get_transitions s) IH) as [n Hn].
    exists (S n); intros is_max is_min d; simpl.
    unfold terminal in T; apply orb_false_iff in T; destruct T as [-> ->].
    destruct (is_max && negb is_min).
    { intros E; apply minimax_max_loop_no_fuel in E.
      destruct E as (ac & ch & I' & N'). exact (Hn ac ch I' _ _ _ N'). }
    destruct (is_min && negb is_max).
    { intros E; apply minimax_min_loop_no_fuel in E.
      destruct E as (ac & ch & I' & N'). exact (Hn ac ch I' _ _ _ N'). }
    discriminate.
Qed.

Lemma finite_game_minimax_returns (s : State) :
  finite_game s ->
  exists n, forall is_max is_min d,
    exists r, forall fuel, (n <= fuel)%nat -> minimax fuel s is_max is_min d = Ok r.
Proof.
  intros F. destruct (finite_game_plain_runs s F) as [n R].
  exists n; intros is_max is_min d.
  destruct (plain_runs_returns n s R is_max is_min d) as [r E].
  exists r; intros fuel L. exact (minimax_fuel_le n fuel L _ _ _ _ _ E).
Qed.

(* ------------------------------------------------------------------ *)
(** ** Pruning and the utility *)

(** X12: on a finite game the pruned search with the window of [choose]
    (minus infinity, plus infinity) and the exhaustive search both return,
    and they return the same utility, whatever the flags and the depth:
    pruning can change the action and the depth returned, never the
    utility. *)
Theorem pruning_keeps_the_utility
    (state : State) (is_max is_min : bool) (node_depth : Z) :
  finite_game state ->
  exists (enough : nat) (r r' : triple),
    (forall fuel, (enough <= fuel)%nat ->
       alphabeta fuel state NegInf PosInf is_max is_min node_depth = Ok r)
    /\ (forall fuel, (enough <= fuel)%nat ->
          minimax fuel state is_max is_min node_depth = Ok r')
    /\ utility_of r = utility_of r'.
Proof.
  intros F.
  destruct (finite_game_returns state F) as [n R].
  destruct (finite_game_minimax_returns state F) as [m R'].
  destruct (R NegInf PosInf is_max is_min node_depth) as [r E].
  destruct (R' is_max is_min node_depth) as [r' E'].
  exists (Nat.max n m), r, r'; split; [| split].
  - intros fuel L; apply E; lia.
  - intros fuel L; apply E'; lia.
  - exact (alphabeta_utility_is_minimax n m state is_max is_min node_depth node_depth
             r r' (E n (le_n n)) (E' m (le_n m))).
Qed.

(** X13: on a finite game, a search started with any window [a < B]
    returns a utility [u] that stands to the exhaustive utility [v] as
    follows: if [v <= a] then [u <= a], if [B <= v] then [B <= u], and if
    [a < v < B] then [u] is [v]. *)
Theorem pruned_utility_respects_the_window
    (state : State) (a B : score) (is_max is_min : bool) (node_depth : Z) :
  finite_game state ->
  score_ltb a B = true ->
  exists (enough : nat) (r r' : triple),
    (forall fuel, (enough <= fuel)%nat ->
       alphabeta fuel state a B is_max is_min node_depth = Ok r)
    /\ (forall fuel, (enough <= fuel)%nat ->
          minimax fuel state is_max is_min node_depth = Ok r')
    /\ (score_leb (utility_of r') a = true -> score_leb (utility_of r) a = true)
    /\ (score_leb B (utility_of r') = true -> score_leb B (utility_of r) = true)
    /\ (score_ltb a (utility_of r') = true ->
        score_ltb (utility_of r') B = true ->
        utility_of r = utility_of r').
Proof.
  intros F L.
  destruct (finite_game_returns state F) as [n R].
  destruct (finite_game_minimax_returns state F) as [m R'].
  destruct (R a B is_max is_min node_depth) as [r E].
  destruct (R' is_max is_min node_depth) as [r' E'].
  exists (Nat.max n m), r, r'; split; [| split].
  - intros fuel Lf; apply E; lia.
  - intros fuel Lf; apply E'; lia.
  - apply score_ltb_lt in L.
    destruct (alphabeta_within n m state a B is_max is_min node_depth node_depth
                r r' L (E n (le_n n)) (E' m (le_n m))) as (W1 & W2 & W3).
    rewrite !score_leb_le, !score_ltb_lt.
    repeat split; [exact W1 | exact W2 |].
    intros L1 L2; apply rank_inj, W3; lia.
Qed.

End MinimaxFacts.

Lemma pruning_keeps_the_utility_witness :
  exists (enough : nat) (r r' : triple),
    (forall fuel, (enough <= fuel)%nat ->
       alphabeta fuel pruning_board NegInf PosInf true false 0 = Ok r)
    /\ (forall fuel, (enough <= fuel)%nat ->
          minimax fuel pruning_board true false 0 = Ok r')
    /\ utility_of r = utility_of r'.
Proof.
  apply (pruning_keeps_the_utility pruning_board true false 0).
  apply contract_finite_game; board_contract.
Defined.

Lemma pruned_utility_respects_the_window_witness :
  exists (enough : nat) (r r' : triple),
    (forall fuel, (enough <= fuel)%nat ->
       alphabeta fuel tie_or_loss Half PosInf false true 1 = Ok r)
    /\ (forall fuel, (enough <= fuel)%nat ->
          minimax fuel tie_or_loss false true 1 = Ok r')
    /\ (score_leb (utility_of r') Half = true -> score_leb (utility_of r) Half = true)
    /\ (score_leb PosInf (utility_of r') = true
        -> score_leb PosInf (utility_of r) = true)
    /\ (score_ltb Half (utility_of r') = true ->
        score_ltb (utility_of r') PosInf = true ->
        utility_of r = utility_of r').
Proof.
  apply (pruned_utility_respects_the_window tie_or_loss Half PosInf false true 1);
    [apply contract_finite_game; board_contract | reflexivity].
Defined.

(* ------------------------------------------------------------------ *)
(** ** Pruning never adds calls *)

Section Cost.

Context {State : Type} `{T3StateOps State}.

Lemma minimax_max_loop_count_erases (crec : counted_searcher)
    (rec : plain_searcher) (d : Z) :
  count_erases crec rec ->
  forall (moves : list (T3Action * State)) best o l,
    fst (minimax_max_loop_count crec d moves best o l)
    = minimax_max_loop rec d moves best o l.
Proof.
  intros Hx; induction moves as [| [action child] rest IH];
    intros best o l; simpl; [reflexivity |].
  rewrite <- (Hx child false true (d + 1)).
  destruct (crec child false true (d + 1)) as [[[[u x] nd] | |] seen];
    simpl; try reflexivity.
  destruct (best_choice_max u best action o nd l) as [[[b' o'] l'] | |];
    simpl; try reflexivity.
  rewrite <- IH.
  destruct (minimax_max_loop_count crec d rest b' o' l'); reflexivity.
Qed.

Lemma minimax_min_loop_count_erases (crec : counted_searcher)
    (rec : plain_searcher) (d : Z) :
  count_erases crec rec ->
  forall (moves : list (T3Action * State)) best o l,
    fst (minimax_min_loop_count crec d moves best o l)
    = minimax_min_loop rec d moves best o l.
Proof.
  intros Hx; induction moves as [| [action child] rest IH];
    intros best o l; simpl; [reflexivity |].
  rewrite <- (Hx child true false (d + 1)).
  destruct (crec child true false (d + 1)) as [[[[u x] nd] | |] seen];
    simpl; try reflexivity.
  destruct (best_choice_min u best action o nd l) as [[[b' o'] l'] | |];
    simpl; try reflexivity.
  rewrite <- IH.
  destruct (minimax_min_loop_count crec d rest b' o' l'); reflexivity.
Qed.

Lemma minimax_count_erases (fuel : nat) : count_erases (minimax_count fuel) (minimax fuel).
Proof.
  induction fuel as [| fuel IH]; intros s is_max is_min d; simpl; [reflexivity |].
  destruct (is_tie s); [reflexivity |].
  destruct (is_win s); [destruct (negb is_max && is_min); reflexivity |].
  destruct (is_max && negb is_min).
  { rewrite <- (minimax_max_loop_count_erases _ _ d IH).
    destruct (minimax_max_loop_count (minimax_count fuel) d (get_transitions s)
                NegInf None d); reflexivity. }
  destruct (is_min && negb is_max).
  { rewrite <- (minimax_min_loop_count_erases _ _ d IH).
    destruct (minimax_min_loop_count (minimax_count fuel) d (get_transitions s)
                PosInf None d); reflexivity. }
  reflexivity.
Qed.

Lemma max_loop_log_no_more (lrec : logged_searcher) (crec : counted_searcher) (d : Z) :
  no_more_calls lrec crec ->
  forall (moves : list (T3Action * State)) a B best o l vbest vo vl r,
    fst (minimax_max_loop_count crec d moves vbest vo vl) = Ok r ->
    (length (snd (max_loop_log lrec d moves a B best o l))
     <= snd (minimax_max_loop_count crec d moves vbest vo vl))%nat.
Proof.
  intros Hn; induction moves as [| [action child] rest IH];
    intros a B best o l vbest vo vl r; simpl; [intros _; apply le_n |].
  pose proof (Hn child a B false true (d + 1)) as Hc.
  destruct (crec child false true (d + 1)) as [[[[v y] nd'] | |] seen'];
    simpl; try discriminate.
  specialize (Hc _ eq_refl); simpl in Hc.
  destruct (best_choice_max v vbest action vo nd' vl) as [[[vb' vo'] vl'] | |];
    simpl; try discriminate.
  destruct (minimax_max_loop_count crec d rest vb' vo' vl') as [r' later'] eqn:El.
  simpl; intros Er.
  destruct (lrec child a B false true (d + 1)) as [[[[u x] nd] | |] seen];
    simpl in *; try lia.
  destruct (best_choice_max u best action o nd l) as [[[b' o'] l'] | |];
    simpl; try lia.
  destruct (score_leb B (score_max a b')); simpl; [lia |].
  specialize (IH (score_max a b') B b' o' l' vb' vo' vl' r).
  rewrite El in IH; simpl in IH; specialize (IH Er).
  destruct (max_loop_log lrec d rest (score_max a b') B b' o' l') as [r2 later];
    simpl in *.
  rewrite length_app; lia.
Qed.

Lemma min_loop_log_no_more (lrec : logged_searcher) (crec : counted_searcher) (d : Z) :
  no_more_calls lrec crec ->
  forall (moves : list (T3Action * State)) a B best o l vbest vo vl r,
    fst (minimax_min_loop_count crec d moves vbest vo vl) = Ok r ->
    (length (snd (min_loop_log lrec d moves a B best o l))
     <= snd (minimax_min_loop_count crec d moves vbest vo vl))%nat.
Proof.
  intros Hn; induction moves as [| [action child] rest IH];
    intros a B best o l vbest vo vl r; simpl; [intros _; apply le_n |].
  pose proof (Hn child a B true false (d + 1)) as Hc.
  destruct (crec child true false (d + 1)) as [[[[v y] nd'] | |] seen'];
    simpl; try discriminate.
  specialize (Hc _ eq_refl); simpl in Hc.
  destruct (best_choice_min v vbest action vo nd' vl) as [[[vb' vo'] vl'] | |];
    simpl; try discriminate.
  destruct (minimax_min_loop_count crec d rest vb' vo' vl') as [r' later'] eqn:El.
  simpl; intros Er.
  destruct (lrec child a B true false (d + 1)) as [[[[u x] nd] | |] seen];
    simpl in *; try lia.
  destruct (best_choice_min u best action o nd l) as [[[b' o'] l'] | |];
    simpl; try lia.
  destruct (score_leb (score_min B b') a); simpl; [lia |].
  specialize (IH a (score_min B b') b' o' l' vb' vo' vl' r).
  rewrite El in IH; simpl in IH; specialize (IH Er).
  destruct (min_loop_log lrec d rest a (score_min B b') b' o' l') as [r2 later];
    simpl in *.
  rewrite length_app; lia.
Qed.

Lemma alphabeta_log_no_more (fuel : nat) :
  no_more_calls (alphabeta_log fuel) (minimax_count fuel).
Proof.
  induction fuel as [| fuel IH]; intros s a B is_max is_min d r; simpl;
    [discriminate |].
  destruct (is_tie s); [intros _; apply le_n |].
  destruct (is_win s); [destruct (negb is_max && is_min); intros _; apply le_n |].
  destruct (is_max && negb is_min).
  { pose proof (max_loop_log_no_more _ _ d IH (get_transitions s)
                  a B NegInf None d NegInf None d) as L.
    destruct (minimax_max_loop_count (minimax_count fuel) d (get_transitions s)
                NegInf None d) as [r' k]; simpl in *.
    intros Er; specialize (L r Er).
    destruct (max_loop_log (alphabeta_log fuel) d (get_transitions s) a B NegInf None d);
      simpl in *; lia. }
  destruct (is_min && negb is_max).
  { pose proof (min_loop_log_no_more _ _ d IH (get_transitions s)
                  a B PosInf None d PosInf None d) as L.
    destruct (minimax_min_loop_count (minimax_count fuel) d (get_transitions s)
                PosInf None d) as [r' k]; simpl in *.
    intros Er; specialize (L r Er).
    destruct (min_loop_log (alphabeta_log fuel) d (get_transitions s) a B PosInf None d);
      simpl in *; lia. }
  intros _; apply le_n.
Qed.

(** X14: on a finite game, and for every fuel that is enough, the pruned
    search makes at most as many calls as the exhaustive search of the same
    state, whatever window it is started with. *)
Theorem pruning_never_adds_calls
    (state : State) (a B : score) (is_max is_min : bool) (node_depth : Z) :
  finite_game state ->
  exists enough : nat,
    forall fuel, (enough <= fuel)%nat ->
      (exists r, fst (alphabeta_log fuel state a B is_max is_min node_depth) = Ok r)
      /\ (exists r', fst (minimax_count fuel state is_max is_min node_depth) = Ok r')
      /\ (length (snd (alphabeta_log fuel state a B is_max is_min node_depth))
          <= snd (minimax_count fuel state is_max is_min node_depth))%nat.
Proof.
  intros F.
  destruct (finite_game_returns state F) as [n R].
  destruct (finite_game_minimax_returns state F) as [m R'].
  destruct (R a B is_max is_min node_depth) as [r E].
  destruct (R' is_max is_min node_depth) as [r' E'].
  exists (Nat.max n m); intros fuel L.
  assert (Ec : fst (minimax_count fuel state is_max is_min node_depth) = Ok r').
  { rewrite minimax_count_erases. apply E'; lia. }
  split; [| split].
  - exists r. rewrite alphabeta_log_erases. apply E; lia.
  - exists r'; exact Ec.
  - exact (alphabeta_log_no_more fuel state a B is_max is_min node_depth r' Ec).
Qed.

End Cost.

Lemma pruning_never_adds_calls_witness :
  exists enough : nat,
    forall fuel, (enough <= fuel)%nat ->
      (exists r, fst (alphabeta_log fuel pruning_board NegInf PosInf true false 0) = Ok r)
      /\ (exists r', fst (minimax_count fuel pruning_board true false 0) = Ok r')
      /\ (length (snd (alphabeta_log fuel pruning_board NegInf PosInf true false 0))
          <= snd (minimax_count fuel pruning_board true false 0))%nat.
Proof.
  apply (pruning_never_adds_calls pruning_board NegInf PosInf true false 0).
  apply contract_finite_game; board_contract.
Defined.
